(** * A graph-convolution layer over binary32 tensors

    Shallow embedding of the [GCNLayer] class of the GCN notebook: the
    constructor [__init__] and the method [forward], together with the
    tensor-library operations they call.

    Scalars are IEEE-754 binary32 values (the library's default dtype),
    given by the Standard Library's executable specification of
    floating-point arithmetic, [SpecFloat], at precision 24 and maximal
    exponent 128: infinities, signed zeros and not-a-number are values,
    and every operation rounds to nearest, ties to even.

    Tensors are the two-dimensional tensors the class is documented for
    (and the one-dimensional ones [torch.diag] returns); they carry their
    sizes next to their entries.

    The library does not fix the order in which it accumulates an entry
    of a matrix product, nor whether it rounds a product before adding
    it.  [init_with] and [forward_with] take that order as a parameter,
    one schedule for each of the five products of the class; what is
    proved of them holds in whatever order the library accumulates.
    [init] and [forward] are their instances for accumulation from zero in
    index order, rounding after each multiplication and each addition
    ([init_in_order], [forward_in_order]).

    A library call that rejects the sizes of its operands raises; this is
    the error [ShapeError].  The constructor returns the layer or fails;
    [forward] is a method that reads the fields of the layer, may fail,
    and returns its value together with the layer it leaves behind. *)

From Stdlib Require Import ZArith List Bool Lia PeanoNat SpecFloat Permutation.
Import ListNotations.

(** ** Scalars: binary32 *)

Module F32.

Definition prec : Z := 24.
Definition emax : Z := 128.

Definition f32 : Type := spec_float.

Definition zero : f32 := S754_zero false.
Definition one : f32 := S754_finite false 8388608 (-23).
Definition two : f32 := S754_finite false 8388608 (-22).
Definition inf : f32 := S754_infinity false.
Definition nan : f32 := S754_nan.

Definition add : f32 -> f32 -> f32 := SFadd prec emax.
Definition mul : f32 -> f32 -> f32 := SFmul prec emax.
Definition div : f32 -> f32 -> f32 := SFdiv prec emax.
Definition sqrt : f32 -> f32 := SFsqrt prec emax.
Definition ltb : f32 -> f32 -> bool := SFltb.
Definition leb : f32 -> f32 -> bool := SFleb.
Definition eqb : f32 -> f32 -> bool := SFeqb.

(** A value a binary32 word can hold: the mantissa and exponent of a
    finite value are in canonical form. *)
Definition valid (x : f32) : bool := valid_binary prec emax x.

Definition is_nan (x : f32) : bool :=
  match x with S754_nan => true | _ => false end.

Definition is_zero (x : f32) : bool :=
  match x with S754_zero _ => true | _ => false end.

(** Neither an infinity nor a not-a-number. *)
Definition is_finite (x : f32) : bool :=
  match x with
  | S754_zero _ | S754_finite _ _ _ => true
  | S754_infinity _ | S754_nan => false
  end.

(** [x ** -0.5]: the library evaluates the exponent [-0.5] as the
    reciprocal of the square root. *)
Definition pow_neg_half (x : f32) : f32 := div one (sqrt x).

(** [max(x, 0)] that returns [x] itself when the comparison [x < 0] does
    not hold, so that a not-a-number stays one. *)
Definition relu (x : f32) : f32 := if ltb x zero then zero else x.

(** The fused multiply-add [x * y + z]: the product is not rounded, the
    sum is rounded once.  With two finite non-zero factors the exact
    product is the unrounded pair of the product of the mantissas and the
    sum of the exponents, which [SFadd] aligns and rounds with [z]; onto a
    zero the result is the rounded product.  In every other case the
    product is exact as [mul] computes it. *)
Definition fma (x y z : f32) : f32 :=
  match x, y with
  | S754_finite sx mx ex, S754_finite sy my ey =>
      match z with
      | S754_nan => S754_nan
      | S754_infinity _ => z
      | S754_zero _ => mul x y
      | S754_finite _ _ _ =>
          add (S754_finite (xorb sx sy) (mx * my) (ex + ey)) z
      end
  | _, _ => add (mul x y) z
  end.

End F32.

Import F32.

(** ** Errors *)

(** The library's run-time error for operands of incompatible sizes. *)
Inductive error : Type := ShapeError.

Inductive result (A : Type) : Type :=
| Ok (a : A)
| Err (e : error).

Arguments Ok {A} a.
Arguments Err {A} e.

Definition bind {A B : Type} (r : result A) (k : A -> result B) : result B :=
  match r with
  | Ok a => k a
  | Err e => Err e
  end.

Declare Scope result_scope.
Delimit Scope result_scope with result.
Notation "x <- r ;; k" := (bind r (fun x => k))
  (at level 61, r at next level, right associativity) : result_scope.

Definition is_ok {A : Type} (r : result A) : bool :=
  match r with Ok _ => true | Err _ => false end.

(** ** Tensors *)

(** A one-dimensional tensor. *)
Definition Vector : Type := list f32.

(** A two-dimensional tensor: its two sizes and its rows. *)
Record Tensor : Type := mkTensor {
  rows : nat;
  cols : nat;
  data : list (list f32)
}.

(** The entries agree with the shape. *)
Definition wf (t : Tensor) : bool :=
  (length (data t) =? rows t)
  && forallb (fun r => length r =? cols t) (data t).

Definition get (t : Tensor) (i j : nat) : f32 :=
  nth j (nth i (data t) []) zero.

Definition build (r c : nat) (f : nat -> nat -> f32) : Tensor :=
  mkTensor r c (map (fun i => map (f i) (seq 0 c)) (seq 0 r)).

(** Every entry of [t] satisfies [p]. *)
Definition all_entries (p : f32 -> bool) (t : Tensor) : bool :=
  forallb (forallb p) (data t).

Module Torch.

(** [Tensor.size(0)] *)
Definition size0 (t : Tensor) : nat := rows t.

(** [Tensor.float()]: conversion to binary32, the identity on the
    tensors modelled here. *)
Definition float (t : Tensor) : Tensor := t.

(** [torch.eye(n)] *)
Definition eye (n : nat) : Tensor :=
  build n n (fun i j => if i =? j then one else zero).

(** [torch.ones(n, m)]: a negative size is an error. *)
Definition ones (n m : Z) : result Tensor :=
  if ((n <? 0) || (m <? 0))%Z then Err ShapeError
  else Ok (build (Z.to_nat n) (Z.to_nat m) (fun _ _ => one)).

(** [torch.rand(n, m)]: the entries are successive draws [rng 0],
    [rng 1], ... of the generator, row by row. *)
Definition rand (rng : nat -> f32) (n m : Z) : result Tensor :=
  if ((n <? 0) || (m <? 0))%Z then Err ShapeError
  else Ok (build (Z.to_nat n) (Z.to_nat m)
                 (fun i j => rng (i * Z.to_nat m + j))).

(** Size of a broadcast dimension: both sizes agree or one of them is 1. *)
Definition broadcast_dim (a b : nat) : option nat :=
  if a =? b then Some a
  else if a =? 1 then Some b
  else if b =? 1 then Some a
  else None.

(** Index into a dimension of size [n] that may have been expanded. *)
Definition bidx (n i : nat) : nat := if n =? 1 then 0 else i.

(** [a + b] with broadcasting. *)
Definition add (a b : Tensor) : result Tensor :=
  match broadcast_dim (rows a) (rows b), broadcast_dim (cols a) (cols b) with
  | Some r, Some c =>
      Ok (build r c (fun i j =>
            F32.add (get a (bidx (rows a) i) (bidx (cols a) j))
                    (get b (bidx (rows b) i) (bidx (cols b) j))))
  | _, _ => Err ShapeError
  end.

(** Sum of the terms [t 0], ..., [t (k-1)], accumulated from zero in
    index order. *)
Definition sum (t : nat -> f32) (k : nat) : f32 :=
  fold_left (fun acc l => F32.add acc (t l)) (seq 0 k) zero.

(** Sum of the products [a 0 * b 0], ..., [a (k-1) * b (k-1)]. *)
Definition dot (a b : nat -> f32) (k : nat) : f32 :=
  sum (fun l => F32.mul (a l) (b l)) k.

(** The matrix product of operands whose inner sizes agree. *)
Definition mm (a b : Tensor) : Tensor :=
  build (rows a) (cols b)
        (fun i j => dot (fun l => get a i l) (fun l => get b l j) (cols a)).

(** [torch.matmul(a, b)] on two-dimensional operands. *)
Definition matmul (a b : Tensor) : result Tensor :=
  if cols a =? rows b then Ok (mm a b) else Err ShapeError.

(** The library does not fix the order in which it accumulates an entry
    of a matrix product: it may start from the accumulator 0 or from a
    product, add partial sums of blocks of the inner index, and fuse a
    multiplication with the addition onto a partial sum.  A [plan] is one
    such order. *)
Inductive plan : Type :=
| Start
| Product (l : nat)
| Plus (p q : plan)
| Fused (l : nat) (p : plan).

(** The value that the plan [p] accumulates from the factors [a l] and
    [b l]. *)
Fixpoint accumulate (a b : nat -> f32) (p : plan) : f32 :=
  match p with
  | Start => zero
  | Product l => F32.mul (a l) (b l)
  | Plus p q => F32.add (accumulate a b p) (accumulate a b q)
  | Fused l p => F32.fma (a l) (b l) (accumulate a b p)
  end.

(** The inner indices whose products the plan takes in. *)
Fixpoint terms (p : plan) : list nat :=
  match p with
  | Start => []
  | Product l => [l]
  | Plus p q => terms p ++ terms q
  | Fused l p => l :: terms p
  end.

(** The plan takes in each of the [k] products once. *)
Definition covers (k : nat) (p : plan) : Prop :=
  Permutation (terms p) (seq 0 k).

(** The plan of every entry of a product: for the inner size [k], the row
    [i] and the column [j]. *)
Definition schedule : Type := nat -> nat -> nat -> plan.

(** Accumulation from zero in index order, rounding every product. *)
Definition in_order : schedule :=
  fun k _ _ => fold_left (fun p l => Plus p (Product l)) (seq 0 k) Start.

(** Accumulation from zero in index order by fused multiply-adds. *)
Definition fused_in_order : schedule :=
  fun k _ _ => fold_left (fun p l => Fused l p) (seq 0 k) Start.

(** The matrix product accumulated as the schedule [s] says. *)
Definition mm_with (s : schedule) (a b : Tensor) : Tensor :=
  build (rows a) (cols b)
        (fun i j => accumulate (fun l => get a i l) (fun l => get b l j)
                      (s (cols a) i j)).

(** [torch.matmul(a, b)] on two-dimensional operands, accumulated as the
    schedule [s] says. *)
Definition matmul_with (s : schedule) (a b : Tensor) : result Tensor :=
  if cols a =? rows b then Ok (mm_with s a b) else Err ShapeError.

(** [torch.diag(t)] on a two-dimensional operand: its main diagonal. *)
Definition diag (t : Tensor) : Vector :=
  map (fun i => get t i i) (seq 0 (Nat.min (rows t) (cols t))).

(** [torch.diag_embed(v)] on a one-dimensional operand. *)
Definition diag_embed (v : Vector) : Tensor :=
  build (length v) (length v)
        (fun i j => if i =? j then nth i v zero else zero).

(** [torch.pow(t, -0.5)], entry by entry. *)
Definition pow_neg_half (t : Tensor) : Tensor :=
  build (rows t) (cols t) (fun i j => F32.pow_neg_half (get t i j)).

(** [F.relu(t)], entry by entry. *)
Definition relu (t : Tensor) : Tensor :=
  build (rows t) (cols t) (fun i j => F32.relu (get t i j)).

End Torch.

(** ** The layer *)

Record GCNLayer : Type := mkGCNLayer {
  input_dim : Z;
  output_dim : Z;
  A : Tensor;
  A_hat : Tensor;
  ones : Tensor;
  D : Tensor;
  D_neg_sqrt : Tensor;
  W : Tensor
}.

(** [GCNLayer.__init__(self, input_dim, output_dim, A)]; [rng] stands for
    the generator behind [torch.rand]. *)
Definition init (rng : nat -> f32) (input_dim output_dim : Z) (A : Tensor)
  : result GCNLayer :=
  (A_hat <- Torch.add A (Torch.eye (Torch.size0 A)) ;;
   ones <- Torch.ones input_dim input_dim ;;
   D0 <- Torch.matmul (Torch.float A) (Torch.float ones) ;;
   let D1 := Torch.diag D0 in
   let D := Torch.diag_embed D1 in
   let D_neg_sqrt :=
     Torch.diag_embed (Torch.diag (Torch.pow_neg_half D)) in
   W <- Torch.rand rng input_dim output_dim ;;
   Ok (mkGCNLayer input_dim output_dim A A_hat ones D D_neg_sqrt W))%result.

(** A method of the layer: it reads and may write the fields of [self],
    and it may fail. *)
Definition Method (R : Type) : Type := GCNLayer -> result (R * GCNLayer).

Definition ret {R : Type} (r : R) : Method R := fun self => Ok (r, self).

Definition mbind {R S : Type} (m : Method R) (k : R -> Method S) : Method S :=
  fun self =>
    match m self with
    | Ok (r, self') => k r self'
    | Err e => Err e
    end.

(** Read a field of [self]. *)
Definition read {R : Type} (field : GCNLayer -> R) : Method R :=
  fun self => Ok (field self, self).

(** Run a library call. *)
Definition call {R : Type} (r : result R) : Method R :=
  fun self =>
    match r with
    | Ok v => Ok (v, self)
    | Err e => Err e
    end.

Declare Scope method_scope.
Delimit Scope method_scope with method.
Notation "x <- m ;; k" := (mbind m (fun x => k))
  (at level 61, m at next level, right associativity) : method_scope.

(** [GCNLayer.forward(self, X)] *)
Definition forward (X : Tensor) : Method Tensor :=
  (d <- read D_neg_sqrt ;;
   a <- read A_hat ;;
   d' <- read D_neg_sqrt ;;
   t <- call (Torch.matmul a d') ;;
   support_1 <- call (Torch.matmul d t) ;;
   w <- read W ;;
   p <- call (Torch.matmul X w) ;;
   support_2 <- call (Torch.matmul support_1 p) ;;
   let H := Torch.relu support_2 in
   ret H)%method.

(** The value a call returns and the layer it leaves behind. *)
Definition returned {R : Type} (r : result (R * GCNLayer)) : result R :=
  match r with
  | Ok (v, _) => Ok v
  | Err e => Err e
  end.

Definition final_state {R : Type} (r : result (R * GCNLayer))
  : option GCNLayer :=
  match r with
  | Ok (_, self) => Some self
  | Err _ => None
  end.

(** ** The layer, whatever the order of accumulation *)

(** The five matrix products of the class: the one of [__init__] and, in
    the order [forward] evaluates them, [A_hat . D_neg_sqrt],
    [D_neg_sqrt . (A_hat . D_neg_sqrt)], [X . W] and
    [support_1 . (X . W)]. *)
Inductive site : Type :=
| Degree
| Inner
| Support_1
| Projection
| Support_2.

(** The schedule the library follows at each product. *)
Definition order : Type := site -> Torch.schedule.

Definition valid_order (ord : order) : Prop :=
  forall (s : site) (k i j : nat), Torch.covers k (ord s k i j).

(** [GCNLayer.__init__(self, input_dim, output_dim, A)] where the library
    accumulates as [ord] says. *)
Definition init_with (ord : order) (rng : nat -> f32)
    (input_dim output_dim : Z) (A : Tensor) : result GCNLayer :=
  (A_hat <- Torch.add A (Torch.eye (Torch.size0 A)) ;;
   ones <- Torch.ones input_dim input_dim ;;
   D0 <- Torch.matmul_with (ord Degree) (Torch.float A) (Torch.float ones) ;;
   let D1 := Torch.diag D0 in
   let D := Torch.diag_embed D1 in
   let D_neg_sqrt :=
     Torch.diag_embed (Torch.diag (Torch.pow_neg_half D)) in
   W <- Torch.rand rng input_dim output_dim ;;
   Ok (mkGCNLayer input_dim output_dim A A_hat ones D D_neg_sqrt W))%result.

(** [GCNLayer.forward(self, X)] where the library accumulates as [ord]
    says. *)
Definition forward_with (ord : order) (X : Tensor) : Method Tensor :=
  (d <- read D_neg_sqrt ;;
   a <- read A_hat ;;
   d' <- read D_neg_sqrt ;;
   t <- call (Torch.matmul_with (ord Inner) a d') ;;
   support_1 <- call (Torch.matmul_with (ord Support_1) d t) ;;
   w <- read W ;;
   p <- call (Torch.matmul_with (ord Projection) X w) ;;
   support_2 <- call (Torch.matmul_with (ord Support_2) support_1 p) ;;
   let H := Torch.relu support_2 in
   ret H)%method.

(** Every product in index order from zero, and every product by fused
    multiply-adds. *)
Definition index_order : order := fun _ => Torch.in_order.
Definition fused_order : order := fun _ => Torch.fused_in_order.

(** ** The notebook's example *)

(** The binary32 value nearest to an integer. *)
Definition of_Z (z : Z) : f32 := binary_normalize prec emax z 0 false.

Definition tensor_of (r c : nat) (l : list (list Z)) : Tensor :=
  mkTensor r c (map (map of_Z) l).

Definition A_example : Tensor :=
  tensor_of 3 3 [[1; 0; 0]; [0; 1; 1]; [0; 1; 1]]%Z.

Definition X_example : Tensor :=
  tensor_of 3 3 [[1; 2; 3]; [4; 5; 6]; [7; 8; 9]]%Z.

(** ** The layer's lifetime *)

(** Modelled from the spec: the optimizer, which is not part of the
    notebook.  After its construction a layer sees forward calls and, in
    between, steps of the optimizer that owns the parameter [W] and
    replaces its value; [W] is the only field the optimizer writes. *)
Inductive event : Type :=
| Forward (X : Tensor)
| OptimizerStep (W' : Tensor).

Definition set_W (W' : Tensor) (self : GCNLayer) : GCNLayer :=
  mkGCNLayer (input_dim self) (output_dim self) (A self) (A_hat self)
             (ones self) (D self) (D_neg_sqrt self) W'.

(** A failing forward call raises and leaves the layer as it was. *)
Definition step (self : GCNLayer) (e : event) : GCNLayer :=
  match e with
  | Forward X =>
      match forward X self with
      | Ok (_, self') => self'
      | Err _ => self
      end
  | OptimizerStep W' => set_W W' self
  end.

Definition lifetime (es : list event) (self : GCNLayer) : GCNLayer :=
  fold_left step es self.

(** ** The quantities of the specification *)

(** An [n] by [m] tensor of binary32 values. *)
Definition is_matrix (n m : nat) (t : Tensor) : bool :=
  (rows t =? n) && (cols t =? m) && wf t && all_entries valid t.

(** [d_i]: the sum of row [i] of [t]. *)
Definition row_sum (t : Tensor) (i : nat) : f32 :=
  Torch.sum (fun j => get t i j) (cols t).

(** Entry [i] of the diagonal of [t . ones], as [init] computes it. *)
Definition degree (t : Tensor) (i : nat) : f32 :=
  Torch.dot (fun l => get t i l) (fun _ => one) (cols t).

(** The row-degree vector [d] of an [n]-node graph. *)
Definition degrees (n : nat) (t : Tensor) : Vector :=
  map (row_sum t) (seq 0 n).

(** [diag(v)]: the diagonal matrix of the vector [v]. *)
Definition diag_matrix (n : nat) (v : nat -> f32) : Tensor :=
  build n n (fun i j => if i =? j then v i else zero).

(** [I_n] and [c * I_n]. *)
Definition identity (n : nat) : Tensor := diag_matrix n (fun _ => one).
Definition scaled_identity (c : f32) (n : nat) : Tensor :=
  diag_matrix n (fun _ => c).

(** [A + I_n]. *)
Definition plus_identity (n : nat) (t : Tensor) : Tensor :=
  build n n (fun i j => F32.add (get t i j) (if i =? j then one else zero)).

(** The diagonal matrix of the inverse square roots of the row sums. *)
Definition inv_sqrt_degree (n : nat) (t : Tensor) : Tensor :=
  diag_matrix n (fun i => F32.pow_neg_half (row_sum t i)).

(** [c * t], entry by entry. *)
Definition scale (c : f32) (t : Tensor) : Tensor :=
  build (rows t) (cols t) (fun i j => F32.mul c (get t i j)).

(** Equal, or both a zero (of either sign). *)
Definition same_value (x y : f32) : Prop :=
  x = y \/ (is_zero x = true /\ is_zero y = true).

(** [0 <= x] *)
Definition nonneg (x : f32) : bool := F32.leb zero x.

(** [S = D_neg_sqrt . A_hat . D_neg_sqrt], [P = X . W] and [S . P] for
    the fields of a layer. *)
Definition S_of (self : GCNLayer) : Tensor :=
  Torch.mm (D_neg_sqrt self) (Torch.mm (A_hat self) (D_neg_sqrt self)).

Definition P_of (self : GCNLayer) (X : Tensor) : Tensor :=
  Torch.mm X (W self).

Definition pre_activation (self : GCNLayer) (X : Tensor) : Tensor :=
  Torch.mm (S_of self) (P_of self X).

(** The layer that [init] builds from a square matrix. *)
Definition constructed (rng : nat -> f32) (n : nat) (o : Z) (a : Tensor)
  : GCNLayer :=
  let all_ones := build n n (fun _ _ => one) in
  let d := Torch.diag_embed (Torch.diag (Torch.mm a all_ones)) in
  mkGCNLayer (Z.of_nat n) o a (plus_identity n a) all_ones d
    (Torch.diag_embed (Torch.diag (Torch.pow_neg_half d)))
    (build n (Z.to_nat o) (fun i j => rng (i * Z.to_nat o + j))).

(** ** The quantities of the specification, whatever the order *)

(** [x] is a binary32 sum of the terms [t l], [l] in [L]: the terms are
    added two partial sums at a time, in some order, every addition
    rounding; the empty sum is 0. *)
Inductive sum_of (t : nat -> f32) : list nat -> f32 -> Prop :=
| sum_of_nil : sum_of t [] zero
| sum_of_term (l : nat) : sum_of t [l] (t l)
| sum_of_add (L1 L2 : list nat) (x y : f32) :
    sum_of t L1 x -> sum_of t L2 y -> sum_of t (L1 ++ L2) (F32.add x y)
| sum_of_perm (L L' : list nat) (x : f32) :
    Permutation L L' -> sum_of t L x -> sum_of t L' x.

(** [x] is a binary32 sum of the products [a l * b l], [l] in [L]: as
    [sum_of], and a product may also be added to a partial sum without
    being rounded first. *)
Inductive dot_of (a b : nat -> f32) : list nat -> f32 -> Prop :=
| dot_of_nil : dot_of a b [] zero
| dot_of_term (l : nat) : dot_of a b [l] (F32.mul (a l) (b l))
| dot_of_add (L1 L2 : list nat) (x y : f32) :
    dot_of a b L1 x -> dot_of a b L2 y ->
    dot_of a b (L1 ++ L2) (F32.add x y)
| dot_of_fma (l : nat) (L : list nat) (x : f32) :
    dot_of a b L x -> dot_of a b (l :: L) (F32.fma (a l) (b l) x)
| dot_of_perm (L L' : list nat) (x : f32) :
    Permutation L L' -> dot_of a b L x -> dot_of a b L' x.

(** [c] is a matrix product [a . b]: every entry is a binary32 sum of
    the products of a row of [a] with a column of [b]. *)
Definition is_product (a b c : Tensor) : Prop :=
  rows c = rows a /\ cols c = cols b /\ wf c = true
  /\ forall i j, i < rows a -> j < cols b ->
       dot_of (fun l => get a i l) (fun l => get b l j)
              (seq 0 (cols a)) (get c i j).

(** [max(x, 0)]: [x] when [0 <= x], 0 when [x < 0], and [x] when [x]
    compares with nothing. *)
Definition max_zero (x : f32) : f32 :=
  if F32.leb zero x then x else if F32.ltb x zero then zero else x.

(** The sum of the integers [z l], [l] in [L], and of [z 0], ...,
    [z (k-1)]. *)
Definition Zsum_list (z : nat -> Z) (L : list nat) : Z :=
  fold_right Z.add 0%Z (map z L).

Definition Zsum (z : nat -> Z) (k : nat) : Z := Zsum_list z (seq 0 k).

(** The product of [x] and [y] has a zero factor and a finite one: it is
    a zero, whether it is rounded or not. *)
Definition vanishes (x y : f32) : Prop :=
  (is_zero x = true /\ is_finite y = true)
  \/ (is_finite x = true /\ is_zero y = true).

(** The integer that a binary32 value is, if it is one. *)
Definition exact_Z (x : f32) : option Z :=
  match x with
  | S754_zero _ => Some 0%Z
  | S754_finite s m e =>
      if (0 <=? e)%Z then Some (cond_Zopp s (Z.pos m * 2 ^ e))
      else if (Z.pos m mod 2 ^ (- e) =? 0)%Z
           then Some (cond_Zopp s (Z.pos m / 2 ^ (- e)))
           else None
  | _ => None
  end.

(** Entry [i] of the diagonal of [t . ones], as [init_with] computes
    it: the degree the layer stores. *)
Definition degree_with (ord : order) (t : Tensor) (i : nat) : f32 :=
  Torch.accumulate (fun l => get t i l) (fun _ => one)
                   (ord Degree (cols t) i i).

(** The layer that [init_with] builds from a square matrix. *)
Definition constructed_with (ord : order) (rng : nat -> f32) (n : nat)
    (o : Z) (a : Tensor) : GCNLayer :=
  let all_ones := build n n (fun _ _ => one) in
  let d :=
    Torch.diag_embed (Torch.diag (Torch.mm_with (ord Degree) a all_ones)) in
  mkGCNLayer (Z.of_nat n) o a (plus_identity n a) all_ones d
    (Torch.diag_embed (Torch.diag (Torch.pow_neg_half d)))
    (build n (Z.to_nat o) (fun i j => rng (i * Z.to_nat o + j))).

(** [S = D_neg_sqrt . (A_hat . D_neg_sqrt)] as [forward_with] computes
    it. *)
Definition S_with (ord : order) (self : GCNLayer) : Tensor :=
  Torch.mm_with (ord Support_1) (D_neg_sqrt self)
    (Torch.mm_with (ord Inner) (A_hat self) (D_neg_sqrt self)).

(** [S . (X . W)] as [forward_with] computes it. *)
Definition pre_activation_with (ord : order) (self : GCNLayer)
    (X : Tensor) : Tensor :=
  Torch.mm_with (ord Support_2) (S_with ord self)
    (Torch.mm_with (ord Projection) X (W self)).

(** ** Concrete inputs *)

(** A generator whose every draw is 0.75. *)
Definition rng_example : nat -> f32 :=
  fun _ => S754_finite false 12582912 (-24).

Definition layer_example : GCNLayer := constructed rng_example 3 2 A_example.

Definition es_example : list event :=
  [Forward X_example; OptimizerStep X_example; Forward A_example;
   OptimizerStep (W layer_example)].

(** A single row, which is not a square matrix. *)
Definition A_row : Tensor := tensor_of 1 3 [[1; 0; 1]]%Z.

(** Two nodes, the second without any edge. *)
Definition A_iso : Tensor := tensor_of 2 2 [[1; 0]; [0; 0]]%Z.
Definition X_ones : Tensor := tensor_of 2 2 [[1; 1]; [1; 1]]%Z.
Definition L_iso : GCNLayer := constructed rng_example 2 1 A_iso.
Definition H_nan : Tensor := mkTensor 2 1 [[nan]; [nan]].


(** Features whose projection overflows: [big] is the largest finite
    binary32 value. *)
Definition big : f32 := S754_finite false 16777215 104.
Definition X_big : Tensor := mkTensor 2 2 [[big; big]; [zero; zero]].
Definition L_id2 : GCNLayer := constructed rng_example 2 1 (identity 2).

(** ** The example cell *)

(** The cell that builds a layer with [input_dim = 3] and
    [output_dim = 2] from the example matrices and calls it. *)
Definition example_usage (rng : nat -> f32) : result Tensor :=
  (gcn_layer <- init rng 3 2 A_example ;;
   returned (forward X_example gcn_layer))%result.

(** The weights the example draws. *)
Definition W_example (rng : nat -> f32) : Tensor :=
  build 3 2 (fun i j => rng (i * 2 + j)).

(** The normalised adjacency of the example. *)
Definition S_example : Tensor :=
  mkTensor 3 3
    [[two; zero; zero];
     [zero; S754_finite false 16777215 (-24);
      S754_finite false 16777215 (-25)];
     [zero; S754_finite false 16777215 (-25);
      S754_finite false 16777215 (-24)]].

(** ** Further concrete inputs *)

Definition X_nan : Tensor :=
  mkTensor 3 3 [[one; nan; one]; [one; one; one]; [one; one; one]].
Definition A_nan : Tensor := mkTensor 2 2 [[one; nan]; [zero; one]].
Definition X_zero : Tensor :=
  tensor_of 3 3 [[0; 0; 0]; [0; 0; 0]; [0; 0; 0]]%Z.
Definition T_empty : Tensor := mkTensor 0 0 [].

(** A first row whose sum, 16777217, is not a binary32 value. *)
Definition A_round : Tensor := tensor_of 2 2 [[16777216; 1]; [0; 1]]%Z.
Definition L_round : GCNLayer :=
  constructed_with index_order rng_example 2 1 A_round.

(** A first row whose three entries sum to 16777218, and an order that,
    for an inner size of 3, adds the last two products before the
    first. *)
Definition A_three : Tensor :=
  tensor_of 3 3 [[16777216; 1; 1]; [0; 1; 0]; [0; 0; 1]]%Z.
Definition tail_first : order :=
  fun _ _ _ _ =>
    Torch.Plus (Torch.Product 0)
               (Torch.Plus (Torch.Product 1) (Torch.Product 2)).

(** A layer that shares [A_hat], [D_neg_sqrt] and [W] with the example
    layer and nothing else. *)
Definition layer_other : GCNLayer :=
  mkGCNLayer 0 0 X_nan (A_hat layer_example) T_empty X_zero
    (D_neg_sqrt layer_example) (W layer_example).

(** Decide a closed goal by evaluation. *)
Ltac evaluate := vm_compute; reflexivity.

(** ** Tensors built entry by entry *)

Lemma build_rows r c f : rows (build r c f) = r.
Proof. reflexivity. Qed.

Lemma build_cols r c f : cols (build r c f) = c.
Proof. reflexivity. Qed.

Lemma nth_map_seq (B : Type) (g : nat -> B) (d : B) (n i : nat) :
  i < n -> nth i (map g (seq 0 n)) d = g i.
Proof.
  intros Hi.
  rewrite (nth_indep _ d (g 0)) by (rewrite length_map, length_seq; exact Hi).
  rewrite map_nth, seq_nth by exact Hi.
  reflexivity.
Qed.

Lemma get_build r c f i j :
  i < r -> j < c -> get (build r c f) i j = f i j.
Proof.
  intros Hi Hj. unfold get, build; simpl.
  rewrite nth_map_seq by exact Hi.
  apply nth_map_seq; exact Hj.
Qed.

Lemma build_ext r c f g :
  (forall i j, i < r -> j < c -> f i j = g i j) ->
  build r c f = build r c g.
Proof.
  intros H. unfold build. f_equal.
  apply map_ext_in. intros i Hi. apply in_seq in Hi.
  apply map_ext_in. intros j Hj. apply in_seq in Hj.
  apply H; lia.
Qed.

Lemma build_wf r c f : wf (build r c f) = true.
Proof.
  unfold wf, build; simpl.
  rewrite length_map, length_seq, Nat.eqb_refl; simpl.
  apply forallb_forall. intros l Hl.
  apply in_map_iff in Hl. destruct Hl as [i [<- _]].
  rewrite length_map, length_seq. apply Nat.eqb_refl.
Qed.

Lemma all_entries_build p r c f :
  (forall i j, i < r -> j < c -> p (f i j) = true) ->
  all_entries p (build r c f) = true.
Proof.
  intros H. unfold all_entries, build; simpl.
  apply forallb_forall. intros l Hl.
  apply in_map_iff in Hl. destruct Hl as [i [<- Hi]]. apply in_seq in Hi.
  apply forallb_forall. intros x Hx.
  apply in_map_iff in Hx. destruct Hx as [j [<- Hj]]. apply in_seq in Hj.
  apply H; lia.
Qed.

Lemma all_entries_get p t i j :
  all_entries p t = true -> p zero = true -> p (get t i j) = true.
Proof.
  intros Hall Hz. unfold get.
  destruct (Nat.lt_ge_cases i (length (data t))) as [Hi | Hi].
  - assert (Hrow : forallb p (nth i (data t) []) = true).
    { unfold all_entries in Hall. rewrite forallb_forall in Hall.
      apply Hall. apply nth_In; exact Hi. }
    destruct (Nat.lt_ge_cases j (length (nth i (data t) []))) as [Hj | Hj].
    + rewrite forallb_forall in Hrow. apply Hrow. apply nth_In; exact Hj.
    + rewrite nth_overflow by exact Hj. exact Hz.
  - rewrite (nth_overflow (data t)) by exact Hi.
    destruct j; exact Hz.
Qed.

(** ** The two methods, unfolded *)

Lemma broadcast_dim_refl n : Torch.broadcast_dim n n = Some n.
Proof. unfold Torch.broadcast_dim. rewrite Nat.eqb_refl. reflexivity. Qed.

Lemma bidx_lt n i : i < n -> Torch.bidx n i = i.
Proof.
  intros Hi. unfold Torch.bidx.
  destruct (Nat.eqb_spec n 1); [lia | reflexivity].
Qed.

Lemma add_eye_square n a :
  rows a = n -> cols a = n ->
  Torch.add a (Torch.eye (Torch.size0 a)) = Ok (plus_identity n a).
Proof.
  intros Hr Hc. unfold Torch.add, Torch.size0, Torch.eye.
  rewrite !build_rows, !build_cols, Hr, Hc, !broadcast_dim_refl.
  f_equal. apply build_ext. intros i j Hi Hj.
  rewrite !bidx_lt by assumption.
  rewrite get_build by assumption. reflexivity.
Qed.

Lemma init_square rng n o a :
  rows a = n -> cols a = n -> (0 <= o)%Z ->
  init rng (Z.of_nat n) o a = Ok (constructed rng n o a).
Proof.
  intros Hr Hc Ho. unfold init.
  rewrite (add_eye_square n a Hr Hc). cbn [bind].
  unfold Torch.ones, Torch.rand, Torch.matmul, Torch.float.
  replace (Z.of_nat n <? 0)%Z with false by (symmetry; apply Z.ltb_ge; lia).
  replace (o <? 0)%Z with false by (symmetry; apply Z.ltb_ge; lia).
  cbn [orb bind]. rewrite build_rows, Nat2Z.id, Hc, Nat.eqb_refl.
  reflexivity.
Qed.

Lemma forward_unfold X self :
  forward X self =
  if (cols (A_hat self) =? rows (D_neg_sqrt self))
     && (cols (D_neg_sqrt self) =? rows (A_hat self))
     && (cols X =? rows (W self))
     && (cols (D_neg_sqrt self) =? rows X)
  then Ok (Torch.relu (pre_activation self X), self)
  else Err ShapeError.
Proof.
  unfold forward, mbind, read, call, ret, Torch.matmul,
    pre_activation, S_of, P_of.
  destruct (cols (A_hat self) =? rows (D_neg_sqrt self)); [| reflexivity].
  cbn [rows cols Torch.mm build andb].
  destruct (cols (D_neg_sqrt self) =? rows (A_hat self)); [| reflexivity].
  destruct (cols X =? rows (W self)); [| reflexivity].
  cbn [rows cols Torch.mm build andb].
  destruct (cols (D_neg_sqrt self) =? rows X); reflexivity.
Qed.

Lemma forward_same_state X self r self' :
  forward X self = Ok (r, self') -> self' = self.
Proof.
  rewrite forward_unfold.
  destruct (_ && _); [| discriminate].
  intros H; inversion H; reflexivity.
Qed.

Lemma step_fields self e :
  A (step self e) = A self /\ A_hat (step self e) = A_hat self
  /\ D (step self e) = D self /\ D_neg_sqrt (step self e) = D_neg_sqrt self.
Proof.
  destruct e as [X | W']; simpl.
  - destruct (forward X self) as [[r self'] | err] eqn:E.
    + rewrite (forward_same_state X self r self' E). repeat split.
    + repeat split.
  - repeat split.
Qed.

Lemma lifetime_fields es : forall self,
  A (lifetime es self) = A self
  /\ A_hat (lifetime es self) = A_hat self
  /\ D (lifetime es self) = D self
  /\ D_neg_sqrt (lifetime es self) = D_neg_sqrt self.
Proof.
  unfold lifetime.
  induction es as [| e es IH]; intros self; simpl.
  - repeat split.
  - destruct (IH (step self e)) as (Ha & Hh & Hd & Hn).
    destruct (step_fields self e) as (Ha' & Hh' & Hd' & Hn').
    repeat split; congruence.
Qed.

(** A forward call returns the same value on two layers that agree on
    the fields it reads. *)
Lemma forward_reads X s1 s2 :
  A_hat s1 = A_hat s2 -> D_neg_sqrt s1 = D_neg_sqrt s2 -> W s1 = W s2 ->
  returned (forward X s1) = returned (forward X s2).
Proof.
  intros Hh Hn Hw. rewrite !forward_unfold.
  unfold pre_activation, S_of, P_of. rewrite Hh, Hn, Hw.
  destruct (_ && _); reflexivity.
Qed.


(** ** Binary32 arithmetic *)

Lemma digits2_pos_shift23 m :
  digits2_pos (m~0~0~0~0~0~0~0~0~0~0~0~0~0~0~0~0~0~0~0~0~0~0~0)
  = (digits2_pos m + 23)%positive.
Proof. cbn [digits2_pos]. lia. Qed.

(** Multiplying a binary32 value by 1 is exact. *)
Lemma mul_one_r x : valid x = true -> mul x one = x.
Proof.
  destruct x as [s | s | | s m e]; simpl; intros Hv.
  - destruct s; reflexivity.
  - destruct s; reflexivity.
  - reflexivity.
  - unfold valid, valid_binary, bounded, canonical_mantissa in Hv.
    apply andb_prop in Hv. destruct Hv as [Hc Hb].
    apply Z.eqb_eq in Hc.
    unfold mul, SFmul, one.
    rewrite Pos.mul_comm. cbn [Pos.mul].
    unfold binary_round_aux, shr_fexp.
    cbn [Zdigits2 shr_record_of_loc].
    rewrite digits2_pos_shift23.
    replace (Z.pos (digits2_pos m + 23) + (e + -23))%Z
      with (Z.pos (digits2_pos m) + e)%Z by lia.
    rewrite Hc.
    replace (e - (e + -23))%Z with 23%Z by lia.
    cbn [shr iter_pos shr_1 orb].
    replace (e + -23 + 23)%Z with e by lia.
    cbn [shr_m loc_of_shr_record round_nearest_even Zdigits2].
    rewrite Hc, Z.sub_diag. cbn [shr shr_m].
    rewrite Hb.
    destruct s; reflexivity.
Qed.

Lemma add_zero_r x : x <> S754_zero true -> add x zero = x.
Proof.
  destruct x as [[|] | s | | s m e]; intros Hx;
    try reflexivity; try (destruct s; reflexivity).
  contradiction Hx; reflexivity.
Qed.

Lemma add_zero_l x : x <> S754_zero true -> add zero x = x.
Proof.
  destruct x as [[|] | s | | s m e]; intros Hx;
    try reflexivity; try (destruct s; reflexivity).
  contradiction Hx; reflexivity.
Qed.

Lemma add_is_zero x y :
  is_zero x = true -> is_zero y = true -> is_zero (add x y) = true.
Proof.
  destruct x as [[|] | | |]; try discriminate;
    destruct y as [[|] | | |]; try discriminate; reflexivity.
Qed.

Lemma add_same_zero_l x y : is_zero x = true -> same_value (add x y) y.
Proof.
  destruct x as [sx | | |]; try discriminate. intros _.
  destruct y as [sy | sy | | sy my ey].
  - right. split; [destruct sx, sy |]; reflexivity.
  - left. destruct sx, sy; reflexivity.
  - left. destruct sx; reflexivity.
  - left. reflexivity.
Qed.

Lemma add_same_zero_r x y z :
  same_value x y -> is_zero z = true -> same_value (add x z) y.
Proof.
  destruct z as [sz | | |]; try discriminate. intros Hxy _.
  destruct Hxy as [-> | [Hx Hy]].
  - destruct y as [sy | sy | | sy my ey].
    + right. split; [destruct sy, sz |]; reflexivity.
    + left. destruct sy; reflexivity.
    + left. reflexivity.
    + left. reflexivity.
  - right. split; [apply add_is_zero; [exact Hx | reflexivity] | exact Hy].
Qed.

Lemma mul_zero_finite x y :
  is_zero x = true -> is_finite y = true -> is_zero (mul x y) = true.
Proof.
  destruct x as [sx | | |]; try discriminate;
    destruct y as [sy | | | sy my ey]; try discriminate; reflexivity.
Qed.

Lemma relu_same_value x y : same_value x y -> same_value (relu x) (relu y).
Proof.
  intros [-> | [Hx Hy]]; [left; reflexivity |].
  destruct x as [sx | | |]; try discriminate.
  destruct y as [sy | | |]; try discriminate.
  right; split; reflexivity.
Qed.

(** Not-a-number and infinity absorb. *)
Lemma add_nan_l x y : is_nan x = true -> is_nan (add x y) = true.
Proof. destruct x; try discriminate; reflexivity. Qed.

Lemma add_nan_r x y : is_nan y = true -> is_nan (add x y) = true.
Proof. destruct y; try discriminate; destruct x; reflexivity. Qed.

Lemma mul_nan_l x y : is_nan x = true -> is_nan (mul x y) = true.
Proof. destruct x; try discriminate; reflexivity. Qed.



Lemma mul_nonfinite_l x y : is_finite x = false -> is_finite (mul x y) = false.
Proof.
  destruct x as [| sx | |]; try discriminate; intros _;
    [destruct y; reflexivity | reflexivity].
Qed.

Lemma mul_nonfinite_r x y : is_finite y = false -> is_finite (mul x y) = false.
Proof.
  destruct y as [| sy | |]; try discriminate; intros _;
    destruct x; reflexivity.
Qed.

Lemma mul_zero_nonfinite x y :
  is_zero x = true -> is_finite y = false -> is_nan (mul x y) = true.
Proof.
  destruct x; try discriminate; destruct y; try discriminate; reflexivity.
Qed.


(** The rectifier returns a not-a-number or a value that is at least 0. *)
Lemma relu_range x : is_nan (F32.relu x) = true \/ nonneg (F32.relu x) = true.
Proof.
  destruct x as [[|] | [|] | | [|] m e]; try (right; reflexivity).
  left; reflexivity.
Qed.

Lemma relu_nan x : is_nan x = true -> is_nan (F32.relu x) = true.
Proof. destruct x; try discriminate; reflexivity. Qed.

(** ** Rounding to binary32 *)

Section Rounding.

Local Open Scope Z_scope.

Lemma Zdigits2_log2 m : 0 < m -> Zdigits2 m = Z.log2 m + 1.
Proof.
  destruct m as [| p | p]; try lia. intros _.
  unfold Zdigits2.
  destruct p as [p | p |]; cbn [digits2_pos Z.log2]; try reflexivity.
  - rewrite Pos2Z.inj_succ. f_equal.
    induction p as [p IH | p IH |]; cbn [digits2_pos Pos.size]; lia.
  - rewrite Pos2Z.inj_succ. f_equal.
    induction p as [p IH | p IH |]; cbn [digits2_pos Pos.size]; lia.
Qed.

Lemma Zdigits2_nonneg m : 0 <= Zdigits2 m.
Proof. destruct m; simpl; lia. Qed.

Lemma Zdigits2_pos m : 0 < m -> 0 < Zdigits2 m.
Proof. destruct m; simpl; lia. Qed.

(** [m < 2^k] bounds the number of digits of [m] by [k]. *)
Lemma Zdigits2_le m k : 0 <= m -> 0 <= k -> m < 2 ^ k -> Zdigits2 m <= k.
Proof.
  intros Hm Hk Hlt.
  destruct (Z.eq_dec m 0) as [-> | Hne]; [simpl; lia |].
  rewrite Zdigits2_log2 by lia.
  apply Z.log2_lt_pow2 in Hlt; lia.
Qed.

Lemma Zdigits2_succ m : 0 <= m -> Zdigits2 (m + 1) <= Zdigits2 m + 1.
Proof.
  intros Hm.
  destruct (Z.eq_dec m 0) as [-> | Hne]; [simpl; lia |].
  apply Zdigits2_le; [lia | pose proof (Zdigits2_nonneg m); lia |].
  rewrite (Zdigits2_log2 m) by lia.
  pose proof (Z.log2_spec m ltac:(lia)) as [_ Hu].
  pose proof (Z.log2_nonneg m).
  replace (Z.log2 m + 1 + 1) with (Z.succ (Z.succ (Z.log2 m))) by lia.
  rewrite Z.pow_succ_r by lia. lia.
Qed.

Lemma Zdigits2_shiftr m n :
  0 < m -> 0 <= n -> n < Zdigits2 m ->
  0 < Z.shiftr m n /\ Zdigits2 (Z.shiftr m n) = Zdigits2 m - n.
Proof.
  intros Hm Hn Hlt. rewrite Zdigits2_log2 in Hlt by exact Hm.
  assert (Hpos : 0 < Z.shiftr m n).
  { rewrite Z.shiftr_div_pow2 by exact Hn.
    apply Z.div_str_pos. split; [apply Z.pow_pos_nonneg; lia |].
    apply Z.log2_le_pow2; lia. }
  split; [exact Hpos |].
  rewrite !Zdigits2_log2 by assumption.
  rewrite Z.log2_shiftr by exact Hm. lia.
Qed.

Lemma shr_1_m mrs : 0 <= shr_m mrs -> shr_m (shr_1 mrs) = Z.shiftr (shr_m mrs) 1.
Proof.
  destruct mrs as [m r s]. cbn [shr_m]. intros Hm.
  destruct m as [| [p | p |] | p]; try lia; reflexivity.
Qed.

Lemma shr_iter_m p : forall mrs,
  0 <= shr_m mrs ->
  shr_m (iter_pos shr_1 p mrs) = Z.shiftr (shr_m mrs) (Z.pos p).
Proof.
  induction p as [p IH | p IH |]; intros mrs Hm; cbn [iter_pos].
  - assert (H1 : 0 <= shr_m (shr_1 mrs))
      by (rewrite shr_1_m by exact Hm; apply Z.shiftr_nonneg; exact Hm).
    assert (H2 : 0 <= shr_m (iter_pos shr_1 p (shr_1 mrs)))
      by (rewrite IH by exact H1; apply Z.shiftr_nonneg; exact H1).
    rewrite IH by exact H2. rewrite IH by exact H1.
    rewrite shr_1_m by exact Hm.
    rewrite !Z.shiftr_shiftr by lia. f_equal. lia.
  - assert (H2 : 0 <= shr_m (iter_pos shr_1 p mrs))
      by (rewrite IH by exact Hm; apply Z.shiftr_nonneg; exact Hm).
    rewrite IH by exact H2. rewrite IH by exact Hm.
    rewrite !Z.shiftr_shiftr by lia. f_equal. lia.
  - apply shr_1_m; exact Hm.
Qed.

Lemma Zdigits2_mono m m' : 0 <= m -> m <= m' -> Zdigits2 m <= Zdigits2 m'.
Proof.
  intros Hm Hle.
  destruct (Z.eq_dec m 0) as [-> | Hne]; [apply Zdigits2_nonneg |].
  rewrite !Zdigits2_log2 by lia.
  pose proof (Z.log2_le_mono m m' Hle). lia.
Qed.

Lemma shiftr_small m n : 0 <= m -> 0 <= n -> Zdigits2 m <= n -> Z.shiftr m n = 0.
Proof.
  intros Hm Hn Hd.
  destruct (Z.eq_dec m 0) as [-> | Hne]; [apply Z.shiftr_0_l |].
  rewrite Zdigits2_log2 in Hd by lia.
  apply Z.shiftr_eq_0; lia.
Qed.

Lemma shr_record_of_loc_m m l : shr_m (shr_record_of_loc m l) = m.
Proof. destruct l as [| []]; reflexivity. Qed.

(** The mantissa and exponent after one alignment to the format. *)
Lemma shr_fexp_spec m e l :
  0 <= m ->
  let n := fexp prec emax (Zdigits2 m + e) - e in
  exists mrs e',
    shr_fexp prec emax m e l = (mrs, e')
    /\ (0 < n -> shr_m mrs = Z.shiftr m n /\ e' = e + n)
    /\ (n <= 0 -> shr_m mrs = m /\ e' = e).
Proof.
  intros Hm n. unfold shr_fexp. fold n.
  destruct n as [| p | p] eqn:En; cbn [shr].
  - eexists _, _. split; [reflexivity |]. split; [lia |].
    intros _. split; [apply shr_record_of_loc_m | reflexivity].
  - eexists _, _. split; [reflexivity |]. split; [| lia].
    intros _. split; [| reflexivity].
    rewrite shr_iter_m by (rewrite shr_record_of_loc_m; exact Hm).
    rewrite shr_record_of_loc_m. reflexivity.
  - eexists _, _. split; [reflexivity |]. split; [lia |].
    intros _. split; [apply shr_record_of_loc_m | reflexivity].
Qed.

Lemma round_nearest_even_range m l :
  m <= round_nearest_even m l <= m + 1.
Proof.
  destruct l as [| []]; cbn [round_nearest_even]; try lia.
  destruct (Z.even m); lia.
Qed.

(** One alignment: where the value goes, in terms of its number of
    digits. *)
Lemma shr_fexp_digits m e l :
  0 <= m ->
  exists mrs e',
    shr_fexp prec emax m e l = (mrs, e')
    /\ 0 <= shr_m mrs
    /\ e <= e'
    /\ e' <= Z.max e (fexp prec emax (Zdigits2 m + e))
    /\ Zdigits2 (shr_m mrs) + e'
       <= Z.max (Zdigits2 m + e) (fexp prec emax (Zdigits2 m + e))
    /\ (0 < m -> emin prec emax < Zdigits2 m + e ->
        0 < shr_m mrs /\ Zdigits2 (shr_m mrs) + e' = Zdigits2 m + e).
Proof.
  intros Hm.
  destruct (shr_fexp_spec m e l Hm) as (mrs & e' & E & Hpos & Hneg).
  exists mrs, e'. split; [exact E |].
  set (X := Zdigits2 m + e) in *.
  assert (HX : fexp prec emax X = Z.max (X - prec) (emin prec emax))
    by reflexivity.
  pose proof (Zdigits2_nonneg m) as Hd.
  destruct (Z.lt_ge_cases 0 (fexp prec emax X - e)) as [Hn | Hn].
  - destruct (Hpos Hn) as [Em Ee]. rewrite Em, Ee.
    split; [apply Z.shiftr_nonneg; exact Hm |].
    split; [lia |]. split; [lia |].
    destruct (Z.lt_ge_cases (fexp prec emax X - e) (Zdigits2 m))
      as [Hlt | Hge].
    + assert (Hm0 : 0 < m) by (destruct m; simpl in *; lia).
      destruct (Zdigits2_shiftr m (fexp prec emax X - e) Hm0 ltac:(lia) Hlt)
        as [Hp Hdg].
      rewrite Hdg. unfold X in *. split; [lia |].
      intros _ _. split; [exact Hp | lia].
    + rewrite (shiftr_small m (fexp prec emax X - e) Hm ltac:(lia) Hge). cbn [Zdigits2].
      unfold X, prec in *. split; [lia |].
      intros Hm0 Hemin. exfalso. lia.
  - destruct (Hneg ltac:(lia)) as [Em Ee]. rewrite Em, Ee.
    unfold X in *.
    split; [exact Hm |]. split; [lia |]. split; [lia |].
    split; [lia |].
    intros Hm0 _. split; [exact Hm0 | reflexivity].
Qed.

(** The result of rounding a non-negative mantissa. *)
Lemma binary_round_aux_spec s m e l :
  0 <= m ->
  exists m2 e2,
    binary_round_aux prec emax s m e l
    = match m2 with
      | Z0 => S754_zero s
      | Z.pos p =>
          if e2 <=? emax - prec then S754_finite s p e2
          else S754_infinity s
      | Z.neg _ => S754_nan
      end
    /\ 0 <= m2
    /\ e <= e2
    /\ (e <= emax - prec -> Zdigits2 m + e <= emax - 1 -> e2 <= emax - prec)
    /\ (0 < m -> emin prec emax < Zdigits2 m + e -> 0 < m2).
Proof.
  intros Hm. unfold binary_round_aux.
  destruct (shr_fexp_digits m e l Hm)
    as (mrs1 & e1 & E1 & H1nn & H1e & H1u & H1d & H1p).
  rewrite E1.
  pose proof (round_nearest_even_range (shr_m mrs1) (loc_of_shr_record mrs1))
    as Hr.
  set (m1 := round_nearest_even (shr_m mrs1) (loc_of_shr_record mrs1)) in *.
  assert (Hm1 : 0 <= m1) by lia.
  destruct (shr_fexp_digits m1 e1 loc_Exact Hm1)
    as (mrs2 & e2 & E2 & H2nn & H2e & H2u & H2d & H2p).
  rewrite E2.
  exists (shr_m mrs2), e2.
  split; [reflexivity |]. split; [exact H2nn |]. split; [lia |].
  assert (Hd1 : Zdigits2 m1 <= Zdigits2 (shr_m mrs1) + 1).
  { apply Z.le_trans with (Zdigits2 (shr_m mrs1 + 1));
      [apply Zdigits2_mono; lia | apply Zdigits2_succ; exact H1nn]. }
  assert (Hd1' : Zdigits2 (shr_m mrs1) <= Zdigits2 m1)
    by (apply Zdigits2_mono; lia).
  unfold fexp, emin, emax, prec in *.
  split.
  - intros He HX. lia.
  - intros Hm0 HX. destruct (H1p Hm0 HX) as [Hp1 Hx1].
    apply H2p; lia.
Qed.

Lemma Zdigits2_lt_pow2 m : 0 < m -> m < 2 ^ Zdigits2 m.
Proof.
  intros Hm. rewrite Zdigits2_log2 by exact Hm.
  pose proof (Z.log2_spec m Hm) as [_ Hu].
  replace (Z.log2 m + 1) with (Z.succ (Z.log2 m)) by lia. exact Hu.
Qed.

Lemma sqrt_core_spec m e :
  bounded prec emax m e = true ->
  exists q e' l,
    SFsqrt_core_binary prec emax (Z.pos m) e = (q, e', l)
    /\ 0 < q /\ -98 <= e' <= 52 /\ Zdigits2 q + e' <= 64.
Proof.
  intros Hb. unfold bounded, canonical_mantissa in Hb.
  apply andb_prop in Hb. destruct Hb as [Hc He].
  apply Z.eqb_eq in Hc. apply Z.leb_le in He.
  unfold SFsqrt_core_binary.
  set (d := Zdigits2 (Z.pos m)).
  assert (Hd : 0 < d) by (apply Zdigits2_pos; lia).
  change (Z.pos (digits2_pos m)) with d in Hc.
  set (e' := Z.min (fexp prec emax (Z.div2 (d + e + 1))) (Z.div2 e)).
  assert (He' : -98 <= e' <= 52 /\ 0 <= e - 2 * e'
                /\ (d + (e - 2 * e') + 1) / 2 + e' <= 64).
  { unfold e', fexp, emin, emax, prec in *. rewrite !Z.div2_div.
    Z.div_mod_to_equations. lia. }
  destruct He' as (He'1 & Hs & Hk).
  set (s := e - 2 * e') in *.
  set (m' := match s with
             | 0 => Z.pos m
             | Z.pos _ => Z.shiftl (Z.pos m) s
             | Z.neg _ => 0
             end).
  assert (Hm' : m' = Z.pos m * 2 ^ s).
  { unfold m'. destruct s as [| ps | ps] eqn:Es; [lia | | lia].
    apply Z.shiftl_mul_pow2. lia. }
  assert (Hm'pos : 0 < m').
  { rewrite Hm'. apply Z.mul_pos_pos; [lia | apply Z.pow_pos_nonneg; lia]. }
  assert (Hm'lt : m' < 2 ^ (d + s)).
  { rewrite Hm', Z.pow_add_r by lia.
    apply Z.mul_lt_mono_pos_r; [apply Z.pow_pos_nonneg; lia |].
    apply Zdigits2_lt_pow2. lia. }
  pose proof (Z.sqrtrem_sqrt m') as Hq.
  destruct (Z.sqrtrem m') as [q r]. cbn [fst] in Hq. subst q.
  eexists _, _, _. split; [reflexivity |].
  split; [apply Z.sqrt_pos; exact Hm'pos |].
  split; [exact He'1 |].
  set (k := (d + s + 1) / 2) in *.
  assert (Hk0 : 0 <= k) by (unfold k; apply Z.div_pos; lia).
  assert (Hlt : Z.sqrt m' < 2 ^ k).
  { apply Z.sqrt_lt_square; [lia | apply Z.pow_nonneg; lia |].
    rewrite <- Z.pow_add_r by lia.
    apply Z.lt_le_trans with (2 ^ (d + s)); [exact Hm'lt |].
    apply Z.pow_le_mono_r; [lia |]. unfold k.
    Z.div_mod_to_equations. lia. }
  pose proof (Zdigits2_le (Z.sqrt m') k (Z.sqrt_nonneg m') Hk0 Hlt). lia.
Qed.

(** The square root of a positive binary32 value is a positive binary32
    value, and not a small one. *)
Lemma sqrt_positive m e :
  bounded prec emax m e = true ->
  exists p ey, F32.sqrt (S754_finite false m e) = S754_finite false p ey
               /\ -98 <= ey.
Proof.
  intros Hb. unfold F32.sqrt, SFsqrt.
  destruct (sqrt_core_spec m e Hb) as (q & e' & l & E & Hq & He' & Hd).
  rewrite E.
  destruct (binary_round_aux_spec false q e' l ltac:(lia))
    as (m2 & e2 & Er & Hm2 & He2 & Hfin & Hpos).
  rewrite Er.
  assert (H2 : 0 < m2).
  { apply Hpos; [exact Hq |]. unfold emin, emax, prec.
    pose proof (Zdigits2_pos q Hq). lia. }
  assert (H3 : e2 <= emax - prec)
    by (apply Hfin; unfold emax, prec; lia).
  destruct m2 as [| p | p]; try lia.
  apply Z.leb_le in H3. rewrite H3.
  exists p, e2. split; [reflexivity | lia].
Qed.

Lemma div_core_spec p ey :
  -126 <= ey ->
  exists q e' l,
    SFdiv_core_binary prec emax 8388608 (-23) (Z.pos p) ey = (q, e', l)
    /\ 0 <= q /\ e' <= 104 /\ Zdigits2 q + e' <= 127.
Proof.
  intros Hey. unfold SFdiv_core_binary.
  change (Zdigits2 8388608) with 24.
  set (d2 := Zdigits2 (Z.pos p)).
  set (e' := Z.min (fexp prec emax (24 + -23 - (d2 + ey))) (-23 - ey)).
  assert (He' : e' <= -23 - ey) by (unfold e'; lia).
  set (s := -23 - ey - e') in *.
  set (m' := match s with
             | 0 => 8388608
             | Z.pos _ => Z.shiftl 8388608 s
             | Z.neg _ => 0
             end).
  assert (Hm' : m' = 2 ^ (23 + s)).
  { unfold m'. destruct s as [| ps | ps] eqn:Es; [reflexivity | | lia].
    rewrite Z.shiftl_mul_pow2 by lia. rewrite Z.pow_add_r by lia.
    reflexivity. }
  pose proof (Z_div_mod m' (Z.pos p) ltac:(lia)) as Hdiv.
  destruct (Z.div_eucl m' (Z.pos p)) as [q r].
  destruct Hdiv as [Hqr Hr].
  assert (Hm'pos : 0 < m') by (rewrite Hm'; apply Z.pow_pos_nonneg; lia).
  assert (Hq : 0 <= q <= m') by nia.
  eexists _, _, _. split; [reflexivity |].
  split; [lia |]. split; [lia |].
  assert (Hd : Zdigits2 q <= 24 + s).
  { apply Zdigits2_le; [lia | lia |].
    apply Z.le_lt_trans with m'; [lia |]. rewrite Hm'.
    apply Z.pow_lt_mono_r; lia. }
  lia.
Qed.

(** The reciprocal of a positive binary32 value that is not small is
    finite. *)
Lemma reciprocal_finite s p ey :
  -126 <= ey -> is_finite (F32.div one (S754_finite s p ey)) = true.
Proof.
  intros Hey. unfold F32.div, SFdiv, one.
  destruct (div_core_spec p ey Hey) as (q & e' & l & E & Hq & He' & Hd).
  rewrite E.
  destruct (binary_round_aux_spec (xorb false s) q e' l Hq)
    as (m2 & e2 & Er & Hm2 & He2 & Hfin & _).
  rewrite Er.
  assert (H3 : e2 <= emax - prec)
    by (apply Hfin; unfold emax, prec; lia).
  destruct m2 as [| p2 | p2]; try lia; [reflexivity |].
  apply Z.leb_le in H3. rewrite H3. reflexivity.
Qed.

(** The inverse square root of a positive binary32 value is finite. *)
Lemma pow_neg_half_finite x :
  valid x = true -> F32.ltb zero x = true ->
  is_finite (F32.pow_neg_half x) = true.
Proof.
  destruct x as [sx | [|] | | [|] m e]; try discriminate; intros Hv _.
  - reflexivity.
  - unfold F32.pow_neg_half.
    destruct (sqrt_positive m e Hv) as (p & ey & E & Hey).
    rewrite E. apply reciprocal_finite. lia.
Qed.

(** Sums of binary32 values are binary32 values. *)

(** One alignment of a mantissa that is not too short yields zero or a
    canonical mantissa. *)
Lemma shr_fexp_canonical m e l :
  0 < m -> e <= fexp prec emax (Zdigits2 m + e) ->
  exists mrs e',
    shr_fexp prec emax m e l = (mrs, e')
    /\ 0 <= shr_m mrs
    /\ ((shr_m mrs = 0 /\ e' = emin prec emax)
        \/ (0 < shr_m mrs /\ e' = fexp prec emax (Zdigits2 (shr_m mrs) + e'))).
Proof.
  intros Hm He.
  destruct (shr_fexp_spec m e l ltac:(lia)) as (mrs & e' & E & Hpos & Hneg).
  exists mrs, e'. split; [exact E |].
  set (X := Zdigits2 m + e) in *.
  pose proof (Zdigits2_pos m Hm) as Hd.
  destruct (Z.lt_ge_cases 0 (fexp prec emax X - e)) as [Hn | Hn].
  - destruct (Hpos Hn) as [Em Ee]. rewrite Em, Ee.
    split; [apply Z.shiftr_nonneg; lia |].
    destruct (Z.lt_ge_cases (fexp prec emax X - e) (Zdigits2 m))
      as [Hlt | Hge].
    + destruct (Zdigits2_shiftr m (fexp prec emax X - e) Hm ltac:(lia) Hlt)
        as [Hp Hdg].
      right. split; [exact Hp |]. rewrite Hdg.
      replace (Zdigits2 m - (fexp prec emax X - e)
               + (e + (fexp prec emax X - e))) with X by (unfold X; lia).
      lia.
    + left. split; [apply shiftr_small; lia |].
      unfold X, fexp, prec in *. lia.
  - destruct (Hneg ltac:(lia)) as [Em Ee]. rewrite Em, Ee.
    split; [lia |]. right. split; [exact Hm |]. fold X. lia.
Qed.

Lemma fexp_mono x y : x <= y -> fexp prec emax x <= fexp prec emax y.
Proof. unfold fexp. lia. Qed.

(** Rounding a mantissa that is not too short yields a binary32 value. *)
Lemma binary_round_aux_valid s m e l :
  0 < m -> e <= fexp prec emax (Zdigits2 m + e) ->
  valid (binary_round_aux prec emax s m e l) = true.
Proof.
  intros Hm He. unfold binary_round_aux.
  destruct (shr_fexp_canonical m e l Hm He)
    as (mrs1 & e1 & E1 & H1nn & H1c).
  rewrite E1.
  pose proof (round_nearest_even_range (shr_m mrs1) (loc_of_shr_record mrs1))
    as Hr.
  set (m1 := round_nearest_even (shr_m mrs1) (loc_of_shr_record mrs1)) in *.
  destruct (Z.eq_dec m1 0) as [Hz | Hnz].
  - rewrite Hz. unfold shr_fexp. cbn [Zdigits2 shr_record_of_loc].
    destruct (fexp prec emax (0 + e1) - e1) as [| p | p]; cbn [shr].
    + reflexivity.
    + rewrite shr_iter_m by (simpl; lia). cbn [shr_m].
      rewrite Z.shiftr_0_l. reflexivity.
    + reflexivity.
  - assert (Hm1 : 0 < m1) by lia.
    assert (He1 : e1 <= fexp prec emax (Zdigits2 m1 + e1)).
    { destruct H1c as [[Hz He1] | [Hp He1]].
      - rewrite He1. unfold fexp. lia.
      - rewrite He1 at 1. apply fexp_mono.
        pose proof (Zdigits2_mono (shr_m mrs1) m1 ltac:(lia) ltac:(lia)).
        lia. }
    destruct (shr_fexp_canonical m1 e1 loc_Exact Hm1 He1)
      as (mrs2 & e2 & E2 & H2nn & H2c).
    rewrite E2.
    destruct H2c as [[Hz He2] | [Hp He2]].
    + rewrite Hz. reflexivity.
    + destruct (shr_m mrs2) as [| p | p] eqn:Ep; try lia.
      destruct (Z.leb_spec e2 (emax - prec)) as [Hle | Hgt]; [| reflexivity].
      unfold valid, valid_binary, bounded, canonical_mantissa.
      change (Z.pos (digits2_pos p)) with (Zdigits2 (Z.pos p)).
      rewrite <- He2, Z.eqb_refl. apply Z.leb_le in Hle. rewrite Hle.
      reflexivity.
Qed.

Lemma digits2_pos_iter_xO m d :
  Z.pos (digits2_pos (Pos.iter xO m d)) = Z.pos (digits2_pos m) + Z.pos d.
Proof.
  induction d as [| d IH] using Pos.peano_ind.
  - cbn [Pos.iter digits2_pos]. lia.
  - rewrite Pos.iter_succ. cbn [digits2_pos]. lia.
Qed.

Lemma binary_round_valid s m e :
  valid (binary_round prec emax s m e) = true.
Proof.
  unfold binary_round, shl_align.
  set (X := Z.pos (digits2_pos m) + e).
  destruct (fexp prec emax X - e) as [| d | d] eqn:Ed.
  - apply binary_round_aux_valid; [lia |]. cbn [Zdigits2]. fold X. lia.
  - apply binary_round_aux_valid; [lia |]. cbn [Zdigits2]. fold X. lia.
  - apply binary_round_aux_valid; [lia |]. cbn [Zdigits2].
    rewrite digits2_pos_iter_xO.
    replace (Z.pos (digits2_pos m) + Z.pos d + fexp prec emax X) with X
      by (unfold X in *; lia).
    lia.
Qed.

Lemma binary_normalize_valid m e :
  valid (binary_normalize prec emax m e false) = true.
Proof.
  destruct m as [| p | p]; cbn [binary_normalize];
    [reflexivity | apply binary_round_valid | apply binary_round_valid].
Qed.

Lemma add_valid x y :
  valid x = true -> valid y = true -> valid (F32.add x y) = true.
Proof.
  intros Hx Hy.
  destruct x as [sx | sx | | sx mx ex]; destruct y as [sy | sy | | sy my ey];
    try reflexivity; try exact Hx; try exact Hy;
    try (destruct sx, sy; reflexivity).
  apply binary_normalize_valid.
Qed.

End Rounding.

(** ** Sums accumulated in index order *)

Section Sums.

Variable t : nat -> f32.

Let acc_step (acc : f32) (l : nat) : f32 := F32.add acc (t l).

Lemma seq_split (i k : nat) :
  i < k -> seq 0 k = seq 0 i ++ i :: seq (S i) (k - S i).
Proof.
  intros Hi.
  replace k with (i + S (k - S i)) at 1 by lia.
  rewrite seq_app. reflexivity.
Qed.

Lemma fold_nan_acc (l : list nat) : forall acc,
  is_nan acc = true -> is_nan (fold_left acc_step l acc) = true.
Proof.
  induction l as [| x l IH]; intros acc Hacc; simpl.
  - exact Hacc.
  - apply IH. apply add_nan_l; exact Hacc.
Qed.


Lemma fold_zero_terms (l : list nat) : forall acc,
  (forall x, In x l -> t x = zero) ->
  acc <> S754_zero true ->
  fold_left acc_step l acc = acc.
Proof.
  induction l as [| x l IH]; intros acc Hl Hacc; simpl.
  - reflexivity.
  - unfold acc_step at 2. rewrite (Hl x) by (left; reflexivity).
    rewrite add_zero_r by exact Hacc.
    apply IH; [intros y Hy; apply Hl; right; exact Hy | exact Hacc].
Qed.

Lemma fold_is_zero (l : list nat) : forall acc,
  (forall x, In x l -> is_zero (t x) = true) ->
  is_zero acc = true ->
  is_zero (fold_left acc_step l acc) = true.
Proof.
  induction l as [| x l IH]; intros acc Hl Hacc; simpl.
  - exact Hacc.
  - apply IH; [intros y Hy; apply Hl; right; exact Hy |].
    apply add_is_zero; [exact Hacc | apply Hl; left; reflexivity].
Qed.

Lemma fold_same_value (l : list nat) (y : f32) : forall acc,
  (forall x, In x l -> is_zero (t x) = true) ->
  same_value acc y ->
  same_value (fold_left acc_step l acc) y.
Proof.
  induction l as [| x l IH]; intros acc Hl Hacc; simpl.
  - exact Hacc.
  - apply IH; [intros z Hz; apply Hl; right; exact Hz |].
    apply add_same_zero_r; [exact Hacc | apply Hl; left; reflexivity].
Qed.

(** A not-a-number term makes the sum a not-a-number. *)
Lemma sum_nan (k i : nat) :
  i < k -> is_nan (t i) = true -> is_nan (Torch.sum t k) = true.
Proof.
  intros Hi Hn. unfold Torch.sum. rewrite (seq_split i k Hi).
  rewrite fold_left_app. simpl.
  apply (fold_nan_acc (seq (S i) (k - S i))). apply add_nan_r; exact Hn.
Qed.


(** A sum of terms that are all [+0] is [+0]. *)
Lemma sum_zero (k : nat) :
  (forall l, l < k -> t l = zero) -> Torch.sum t k = zero.
Proof.
  intros Hz. unfold Torch.sum. apply fold_zero_terms; [| discriminate].
  intros x Hx. apply in_seq in Hx. apply Hz; lia.
Qed.

(** A sum whose terms are all [+0] but one is that term. *)
Lemma sum_single (k i : nat) :
  i < k ->
  (forall l, l < k -> l <> i -> t l = zero) ->
  t i <> S754_zero true ->
  Torch.sum t k = t i.
Proof.
  intros Hi Hz Hti. unfold Torch.sum. rewrite (seq_split i k Hi).
  rewrite fold_left_app. simpl.
  rewrite (fold_zero_terms (seq 0 i)).
  - rewrite add_zero_l by exact Hti.
    apply fold_zero_terms; [| exact Hti].
    intros x Hx. apply in_seq in Hx. apply Hz; lia.
  - intros x Hx. apply in_seq in Hx. apply Hz; lia.
  - discriminate.
Qed.

(** A sum whose terms are all zeros but one has the value of that term. *)
Lemma sum_single_same (k i : nat) :
  i < k ->
  (forall l, l < k -> l <> i -> is_zero (t l) = true) ->
  same_value (Torch.sum t k) (t i).
Proof.
  intros Hi Hz. unfold Torch.sum. rewrite (seq_split i k Hi).
  rewrite fold_left_app. simpl.
  apply fold_same_value.
  - intros x Hx. apply in_seq in Hx. apply Hz; lia.
  - apply add_same_zero_l. apply fold_is_zero; [| reflexivity].
    intros x Hx. apply in_seq in Hx. apply Hz; lia.
Qed.

(** A sum of binary32 values is a binary32 value. *)
Lemma sum_valid (k : nat) :
  (forall l, l < k -> valid (t l) = true) -> valid (Torch.sum t k) = true.
Proof.
  intros Hv. unfold Torch.sum.
  assert (G : forall l acc, (forall x, In x l -> valid (t x) = true) ->
            valid acc = true -> valid (fold_left acc_step l acc) = true).
  { induction l as [| x l IH]; intros acc Hl Hacc; simpl; [exact Hacc |].
    apply IH; [intros y Hy; apply Hl; right; exact Hy |].
    apply add_valid; [exact Hacc | apply Hl; left; reflexivity]. }
  apply G; [| reflexivity].
  intros x Hx. apply in_seq in Hx. apply Hv; lia.
Qed.

End Sums.

Lemma sum_ext (t t' : nat -> f32) (k : nat) :
  (forall l, l < k -> t l = t' l) -> Torch.sum t k = Torch.sum t' k.
Proof.
  intros H. unfold Torch.sum.
  assert (G : forall l acc, (forall x, In x l -> t x = t' x) ->
            fold_left (fun a x => F32.add a (t x)) l acc
            = fold_left (fun a x => F32.add a (t' x)) l acc).
  { induction l as [| x l IH]; intros acc Hl; simpl; [reflexivity |].
    rewrite (Hl x) by (left; reflexivity).
    apply IH. intros y Hy. apply Hl. right; exact Hy. }
  apply G. intros x Hx. apply in_seq in Hx. apply H; lia.
Qed.

(** ** Diagonals *)

Lemma get_diag_matrix n v i j :
  i < n -> j < n ->
  get (diag_matrix n v) i j = if i =? j then v i else zero.
Proof. intros Hi Hj. unfold diag_matrix. apply get_build; assumption. Qed.

Lemma diag_embed_map n (g : nat -> f32) :
  Torch.diag_embed (map g (seq 0 n)) = diag_matrix n g.
Proof.
  unfold Torch.diag_embed, diag_matrix.
  rewrite length_map, length_seq.
  apply build_ext. intros i j Hi Hj.
  rewrite nth_map_seq by exact Hi. reflexivity.
Qed.

Lemma diag_square n t :
  rows t = n -> cols t = n ->
  Torch.diag t = map (fun i => get t i i) (seq 0 n).
Proof.
  intros Hr Hc. unfold Torch.diag. rewrite Hr, Hc, Nat.min_id. reflexivity.
Qed.

Lemma get_mm a b i j :
  i < rows a -> j < cols b ->
  get (Torch.mm a b) i j
  = Torch.dot (fun l => get a i l) (fun l => get b l j) (cols a).
Proof. intros Hi Hj. unfold Torch.mm. apply get_build; assumption. Qed.

(** The diagonal of [a . ones] holds the degrees. *)
Lemma diag_mm_ones n a :
  rows a = n -> cols a = n ->
  Torch.diag (Torch.mm a (build n n (fun _ _ => one)))
  = map (degree a) (seq 0 n).
Proof.
  intros Hr Hc.
  rewrite (diag_square n) by (unfold Torch.mm; simpl; congruence).
  apply map_ext_in. intros i Hi. apply in_seq in Hi.
  rewrite get_mm by (rewrite ?build_cols; lia).
  unfold degree, Torch.dot. apply sum_ext. intros l Hl.
  rewrite get_build by lia. reflexivity.
Qed.

Lemma D_constructed rng n o a :
  rows a = n -> cols a = n ->
  D (constructed rng n o a) = diag_matrix n (degree a).
Proof.
  intros Hr Hc. unfold constructed; cbn [D].
  rewrite (diag_mm_ones n a Hr Hc). apply diag_embed_map.
Qed.

(** Raising [D] to the power -0.5 and re-embedding the diagonal of the
    result keeps the inverse square roots of the degrees and nothing else. *)
Lemma D_neg_sqrt_constructed rng n o a :
  rows a = n -> cols a = n ->
  D_neg_sqrt (constructed rng n o a)
  = diag_matrix n (fun i => F32.pow_neg_half (degree a i)).
Proof.
  intros Hr Hc. unfold constructed; cbn [D_neg_sqrt].
  rewrite (diag_mm_ones n a Hr Hc), (diag_embed_map n (degree a)).
  rewrite (diag_square n) by reflexivity.
  rewrite diag_embed_map.
  unfold diag_matrix at 1 3. apply build_ext. intros i j Hi Hj.
  destruct (i =? j); [| reflexivity].
  unfold Torch.pow_neg_half. rewrite get_build by (simpl; lia).
  rewrite get_diag_matrix by lia. rewrite Nat.eqb_refl. reflexivity.
Qed.

(** On binary32 entries, the degree computed through the product with the
    matrix of ones is the plain row sum. *)
Lemma degree_row_sum a i :
  all_entries valid a = true -> degree a i = row_sum a i.
Proof.
  intros Hv. unfold degree, row_sum, Torch.dot.
  apply sum_ext. intros l _.
  apply mul_one_r. apply all_entries_get; [exact Hv | reflexivity].
Qed.

Lemma row_sum_valid a i :
  all_entries valid a = true -> valid (row_sum a i) = true.
Proof.
  intros Hv. unfold row_sum. apply sum_valid. intros l _.
  apply all_entries_get; [exact Hv | reflexivity].
Qed.

Lemma is_matrix_inv n m t :
  is_matrix n m t = true ->
  rows t = n /\ cols t = m /\ wf t = true /\ all_entries valid t = true.
Proof.
  unfold is_matrix. intros H.
  apply andb_prop in H. destruct H as [H Hv].
  apply andb_prop in H. destruct H as [H Hw].
  apply andb_prop in H. destruct H as [Hr Hc].
  apply Nat.eqb_eq in Hr. apply Nat.eqb_eq in Hc.
  repeat split; assumption.
Qed.

Lemma inv_sqrt_degree_constructed rng n o a :
  is_matrix n n a = true ->
  D_neg_sqrt (constructed rng n o a) = inv_sqrt_degree n a.
Proof.
  intros Hm. destruct (is_matrix_inv n n a Hm) as (Hr & Hc & _ & Hv).
  rewrite (D_neg_sqrt_constructed rng n o a Hr Hc).
  unfold inv_sqrt_degree, diag_matrix. apply build_ext. intros i j _ _.
  rewrite (degree_row_sum a i Hv). reflexivity.
Qed.

Lemma constructed_shapes rng n o a :
  rows a = n -> cols a = n ->
  rows (A_hat (constructed rng n o a)) = n
  /\ cols (A_hat (constructed rng n o a)) = n
  /\ rows (D_neg_sqrt (constructed rng n o a)) = n
  /\ cols (D_neg_sqrt (constructed rng n o a)) = n
  /\ rows (W (constructed rng n o a)) = n
  /\ cols (W (constructed rng n o a)) = Z.to_nat o.
Proof.
  intros Hr Hc.
  rewrite (D_neg_sqrt_constructed rng n o a Hr Hc).
  repeat split.
Qed.

Lemma forward_constructed rng n o a X :
  rows a = n -> cols a = n -> rows X = n -> cols X = n ->
  forward X (constructed rng n o a)
  = Ok (Torch.relu (pre_activation (constructed rng n o a) X),
        constructed rng n o a).
Proof.
  intros Hr Hc HrX HcX.
  destruct (constructed_shapes rng n o a Hr Hc)
    as (H1 & H2 & H3 & H4 & H5 & _).
  rewrite forward_unfold, H1, H2, H3, H4, H5, HrX, HcX, !Nat.eqb_refl.
  reflexivity.
Qed.

Lemma forward_constructed_error rng n o a X :
  rows a = n -> cols a = n -> rows X <> n \/ cols X <> n ->
  forward X (constructed rng n o a) = Err ShapeError.
Proof.
  intros Hr Hc HX.
  destruct (constructed_shapes rng n o a Hr Hc)
    as (H1 & H2 & H3 & H4 & H5 & _).
  rewrite forward_unfold, H1, H2, H3, H4, H5, !Nat.eqb_refl.
  cbn [andb].
  destruct (Nat.eqb_spec (cols X) n) as [E1 | E1];
    destruct (Nat.eqb_spec n (rows X)) as [E2 | E2];
    try reflexivity.
  destruct HX as [HX | HX]; [symmetry in E2 |]; contradiction.
Qed.

Lemma pre_activation_shape rng n o a X :
  rows a = n -> cols a = n ->
  rows (pre_activation (constructed rng n o a) X) = n
  /\ cols (pre_activation (constructed rng n o a) X) = Z.to_nat o.
Proof.
  intros Hr Hc.
  destruct (constructed_shapes rng n o a Hr Hc)
    as (_ & _ & H3 & _ & _ & H6).
  unfold pre_activation, S_of, P_of, Torch.mm.
  rewrite !build_rows, !build_cols. split; assumption.
Qed.

Lemma init_ok_iff rng n o a :
  is_ok (init rng n o a) = true <->
  (0 <= n)%Z /\ (0 <= o)%Z /\ Z.of_nat (cols a) = n
  /\ (rows a = cols a \/ rows a = 1 \/ cols a = 1).
Proof.
  unfold init, Torch.add, Torch.size0, Torch.eye, Torch.ones, Torch.rand,
    Torch.matmul, Torch.float.
  rewrite !build_rows, !build_cols, broadcast_dim_refl.
  unfold Torch.broadcast_dim.
  destruct (Z.ltb_spec n 0) as [Hn | Hn];
    destruct (Z.ltb_spec o 0) as [Ho | Ho];
    destruct (Nat.eqb_spec (cols a) (rows a)) as [Hs | Hs];
    destruct (Nat.eqb_spec (cols a) 1) as [Hc1 | Hc1];
    destruct (Nat.eqb_spec (rows a) 1) as [Hr1 | Hr1];
    cbn [bind orb is_ok rows build];
    try (split; [discriminate | intros; lia]);
    destruct (Nat.eqb_spec (cols a) (Z.to_nat n)) as [Hk | Hk];
    cbn [bind is_ok];
    try (split; [discriminate | intros; lia]);
    (split; [intros _; lia | reflexivity]).
Qed.

Lemma get_relu t i j :
  i < rows t -> j < cols t ->
  get (Torch.relu t) i j = F32.relu (get t i j).
Proof. intros Hi Hj. unfold Torch.relu. apply get_build; assumption. Qed.

(** ** Construction and forward pass on a square matrix *)

(** C3: on a layer constructed from an [n] by [n] matrix, [forward X]
    fails with [ShapeError] whenever [X] does not have [n] rows or does not
    have [input_dim] columns, and it returns a value when [X] has [n] rows
    and [input_dim] columns. *)
Theorem forward_shape_error rng (n : nat) (o : Z) (a X : Tensor) :
  rows a = n -> cols a = n -> (0 <= o)%Z ->
  exists L,
    init rng (Z.of_nat n) o a = Ok L
    /\ (rows X <> n \/ Z.of_nat (cols X) <> input_dim L ->
        returned (forward X L) = Err ShapeError)
    /\ (rows X = n -> Z.of_nat (cols X) = input_dim L ->
        returned (forward X L) = Ok (Torch.relu (pre_activation L X))).
Proof.
  intros Hr Hc Ho.
  exists (constructed rng n o a).
  split; [apply init_square; assumption |].
  cbn [input_dim constructed]. split.
  - intros HX.
    rewrite (forward_constructed_error rng n o a X Hr Hc); [reflexivity |].
    destruct HX as [HX | HX]; [left; exact HX | right; lia].
  - intros HrX HcX. apply Nat2Z.inj in HcX.
    rewrite (forward_constructed rng n o a X Hr Hc HrX HcX). reflexivity.
Qed.

(** C4, as amended: construction succeeds exactly when the two
    dimensions are not negative, [input_dim] is the number of columns of
    [a], and [a] is square or has a single row or a single column;
    otherwise it fails with [ShapeError].  A square matrix is thus accepted
    exactly when [input_dim] is its size. *)
Theorem init_shape_error rng (n o : Z) (a : Tensor) :
  let accepted :=
    (0 <= n)%Z /\ (0 <= o)%Z /\ Z.of_nat (cols a) = n
    /\ (rows a = cols a \/ rows a = 1 \/ cols a = 1) in
  (is_ok (init rng n o a) = true <-> accepted)
  /\ (init rng n o a = Err ShapeError <-> ~ accepted).
Proof.
  intros accepted. pose proof (init_ok_iff rng n o a) as H.
  fold accepted in H. split; [exact H |].
  destruct (init rng n o a) as [L | []]; cbn [is_ok] in H.
  - split; [discriminate |]. intros Hn. contradiction Hn. apply H. reflexivity.
  - split; [| reflexivity]. intros _ Hacc. apply H in Hacc. discriminate.
Qed.

(** C5, as amended: for a square [n] by [n] matrix [a] constructed with
    [input_dim = n] and a positive [output_dim], and an [n] by [n] feature
    matrix [X], [forward X] returns an [n] by [output_dim] matrix whose
    every entry is a not-a-number or at least 0. *)
Theorem forward_output_range rng (n : nat) (o : Z) (a X : Tensor) :
  is_matrix n n a = true -> is_matrix n n X = true -> (0 < o)%Z ->
  exists L H,
    init rng (Z.of_nat n) o a = Ok L
    /\ returned (forward X L) = Ok H
    /\ rows H = n /\ cols H = Z.to_nat o /\ wf H = true
    /\ all_entries (fun x => is_nan x || nonneg x) H = true.
Proof.
  intros Ha HX Ho.
  destruct (is_matrix_inv n n a Ha) as (Hr & Hc & _ & _).
  destruct (is_matrix_inv n n X HX) as (HrX & HcX & _ & _).
  destruct (pre_activation_shape rng n o a X Hr Hc) as (Hpr & Hpc).
  exists (constructed rng n o a).
  exists (Torch.relu (pre_activation (constructed rng n o a) X)).
  split; [apply init_square; [assumption | assumption | lia] |].
  split; [rewrite (forward_constructed rng n o a X Hr Hc HrX HcX);
          reflexivity |].
  unfold Torch.relu. rewrite build_rows, build_cols.
  split; [exact Hpr |]. split; [exact Hpc |].
  split; [apply build_wf |].
  apply all_entries_build. intros i j _ _.
  destruct (relu_range (get (pre_activation (constructed rng n o a) X) i j))
    as [E | E]; rewrite E; [reflexivity | apply orb_true_r].
Qed.

(** ** An isolated node *)

Section Isolated.

Variables (dn ah p : Tensor) (n j : nat).
Hypothesis dn_rows : rows dn = n.
Hypothesis dn_cols : cols dn = n.
Hypothesis ah_rows : rows ah = n.
Hypothesis ah_cols : cols ah = n.
Hypothesis p_rows : rows p = n.
Hypothesis j_lt : j < n.
Hypothesis dn_jj : is_finite (get dn j j) = false.




Hypothesis off_diagonal :
  forall i k, i < n -> k < n -> i <> k -> get dn i k = zero.



End Isolated.



(** ** The identity as adjacency matrix *)

Lemma get_scaled_identity c n i j :
  i < n -> j < n ->
  get (scaled_identity c n) i j = if i =? j then c else zero.
Proof. intros Hi Hj. unfold scaled_identity. apply get_diag_matrix; assumption. Qed.

Lemma mm_scaled_identity c c' n :
  F32.mul zero c' = zero -> F32.mul c zero = zero ->
  F32.mul c c' <> S754_zero true ->
  Torch.mm (scaled_identity c n) (scaled_identity c' n)
  = scaled_identity (F32.mul c c') n.
Proof.
  intros Hzc Hcz Hcc.
  apply eq_trans
    with (build n n (fun i j => if i =? j then F32.mul c c' else zero));
    [| reflexivity].
  unfold Torch.mm.
  change (rows (scaled_identity c n)) with n.
  change (cols (scaled_identity c' n)) with n.
  change (cols (scaled_identity c n)) with n.
  apply build_ext. intros i j Hi Hj. unfold Torch.dot.
  destruct (Nat.eqb_spec i j) as [<- | Hij].
  - rewrite (sum_single _ n i Hi).
    + rewrite !get_scaled_identity, Nat.eqb_refl by assumption. reflexivity.
    + intros l Hl Hli. rewrite !get_scaled_identity by assumption.
      destruct (Nat.eqb_spec i l); [congruence |].
      destruct (Nat.eqb_spec l i); [congruence | reflexivity].
    + rewrite !get_scaled_identity, Nat.eqb_refl by assumption. exact Hcc.
  - apply sum_zero. intros l Hl.
    rewrite !get_scaled_identity by assumption.
    destruct (Nat.eqb_spec i l) as [<- | Hil].
    + destruct (Nat.eqb_spec i j); [contradiction | exact Hcz].
    + destruct (l =? j); [exact Hzc | reflexivity].
Qed.

Lemma row_sum_identity n i : i < n -> row_sum (identity n) i = one.
Proof.
  intros Hi. unfold row_sum. change (cols (identity n)) with n.
  rewrite (sum_single _ n i Hi).
  - unfold identity. rewrite get_diag_matrix, Nat.eqb_refl by assumption.
    reflexivity.
  - intros l Hl Hli. unfold identity. rewrite get_diag_matrix by assumption.
    destruct (Nat.eqb_spec i l); [congruence | reflexivity].
  - unfold identity. rewrite get_diag_matrix, Nat.eqb_refl by assumption.
    discriminate.
Qed.

Lemma identity_is_matrix n : is_matrix n n (identity n) = true.
Proof.
  unfold is_matrix, identity, diag_matrix.
  rewrite build_rows, build_cols, !Nat.eqb_refl, build_wf. cbn [andb].
  apply all_entries_build. intros i j _ _. destruct (i =? j); reflexivity.
Qed.

Lemma scale_entry c t i l :
  i < rows t -> l < cols t -> get (scale c t) i l = F32.mul c (get t i l).
Proof. intros Hi Hl. unfold scale. apply get_build; assumption. Qed.

(** C7, as amended: when the adjacency matrix is the identity and
    [input_dim = n], every row-degree is 1, [D_neg_sqrt] is the identity,
    [A_hat] is [2 I_n], and [forward X] returns
    [ReLU((2 I_n) . (X . W))]; in a column of [X . W] whose entries are
    all finite, its entries have the value of those of [ReLU(2 (X . W))]. *)
Theorem identity_adjacency rng (n : nat) (o : Z) (X : Tensor) :
  is_matrix n n X = true -> (0 <= o)%Z ->
  exists L H,
    init rng (Z.of_nat n) o (identity n) = Ok L
    /\ returned (forward X L) = Ok H
    /\ (forall i, i < n -> row_sum (identity n) i = one)
    /\ D_neg_sqrt L = identity n
    /\ A_hat L = scaled_identity two n
    /\ H = Torch.relu (Torch.mm (scaled_identity two n) (Torch.mm X (W L)))
    /\ (forall i l, i < n -> l < Z.to_nat o ->
        (forall k, k < n -> is_finite (get (Torch.mm X (W L)) k l) = true) ->
        same_value (get H i l)
          (get (Torch.relu (scale two (Torch.mm X (W L)))) i l)).
Proof.
  intros HX Ho.
  pose proof (identity_is_matrix n) as Ha.
  destruct (is_matrix_inv n n (identity n) Ha) as (Hr & Hc & _ & Hv).
  destruct (is_matrix_inv n n X HX) as (HrX & HcX & _ & _).
  set (L := constructed rng n o (identity n)).
  assert (HD : D_neg_sqrt L = identity n).
  { unfold L. rewrite (inv_sqrt_degree_constructed rng n o _ Ha).
    unfold inv_sqrt_degree, identity, diag_matrix.
    apply build_ext. intros i j Hi Hj.
    destruct (i =? j); [| reflexivity].
    fold (diag_matrix n (fun _ => one)). fold (identity n).
    rewrite (row_sum_identity n i Hi). reflexivity. }
  assert (HA : A_hat L = scaled_identity two n).
  { cbn [A_hat L constructed]. unfold plus_identity, scaled_identity, diag_matrix.
    apply build_ext. intros i j Hi Hj.
    unfold identity. rewrite get_diag_matrix by assumption.
    destruct (i =? j); reflexivity. }
  assert (HS : S_of L = scaled_identity two n).
  { unfold S_of. rewrite HD, HA.
    change (identity n) with (scaled_identity one n).
    rewrite (mm_scaled_identity two one n) by (reflexivity || discriminate).
    rewrite (mm_scaled_identity one (F32.mul two one) n)
      by (reflexivity || discriminate).
    reflexivity. }
  assert (HrW : rows (W L) = n) by reflexivity.
  assert (HcW : cols (W L) = Z.to_nat o) by reflexivity.
  exists L, (Torch.relu (pre_activation L X)).
  split; [apply init_square; assumption |].
  split; [unfold L; rewrite (forward_constructed rng n o _ X Hr Hc HrX HcX);
          reflexivity |].
  split; [exact (row_sum_identity n) |].
  split; [exact HD |].
  split; [exact HA |].
  unfold pre_activation. rewrite HS. unfold P_of.
  split; [reflexivity |].
  intros i l Hi Hl Hfin.
  set (P := Torch.mm X (W L)) in *.
  assert (HrP : rows P = n) by exact HrX.
  assert (HcP : cols P = Z.to_nat o) by reflexivity.
  rewrite !get_relu by (unfold scale, Torch.mm; simpl; lia).
  apply relu_same_value.
  rewrite scale_entry by lia.
  rewrite get_mm by (unfold scaled_identity, diag_matrix; simpl; lia).
  unfold Torch.dot. change (cols (scaled_identity two n)) with n.
  replace (F32.mul two (get P i l))
    with (F32.mul (get (scaled_identity two n) i i) (get P i l))
    by (rewrite get_scaled_identity, Nat.eqb_refl by assumption; reflexivity).
  apply (sum_single_same
           (fun k => F32.mul (get (scaled_identity two n) i k) (get P k l))
           n i Hi).
  intros k Hk Hki. rewrite get_scaled_identity by assumption.
  destruct (Nat.eqb_spec i k); [congruence |].
  apply mul_zero_finite; [reflexivity | apply Hfin; exact Hk].
Qed.

(** ** The inverse square root of the degree matrix *)

Lemma diag_embed_diag_agree n (m m' : Tensor) :
  rows m = n -> cols m = n -> rows m' = n -> cols m' = n ->
  (forall i, i < n -> get m i i = get m' i i) ->
  Torch.diag_embed (Torch.diag m) = Torch.diag_embed (Torch.diag m').
Proof.
  intros Hr Hc Hr' Hc' Hd.
  rewrite (diag_square n m Hr Hc), (diag_square n m' Hr' Hc').
  f_equal. apply map_ext_in. intros i Hi. apply in_seq in Hi.
  apply Hd; lia.
Qed.

(** ** Frame *)

(** C9: a forward call leaves every field of the layer as it was (it
    either returns with the layer unchanged or raises), and throughout a
    layer's lifetime of forward calls and optimizer steps the fields [A],
    [A_hat], [D] and [D_neg_sqrt] keep the values they were given at
    construction. *)
Theorem forward_frame (X : Tensor) (self : GCNLayer) (es : list event) :
  (final_state (forward X self) = Some self
   \/ forward X self = Err ShapeError)
  /\ A (lifetime es self) = A self
  /\ A_hat (lifetime es self) = A_hat self
  /\ D (lifetime es self) = D self
  /\ D_neg_sqrt (lifetime es self) = D_neg_sqrt self.
Proof.
  split; [| apply lifetime_fields].
  rewrite forward_unfold. destruct (_ && _); [left | right]; reflexivity.
Qed.

(** ** Instances on concrete inputs *)

(** On the notebook's matrix the first degree is 1, the sum of the first
    row of [A], whereas the first row of [A_hat] sums to 2. *)
Example degree_of_example :
  get (D layer_example) 0 0 = one
  /\ row_sum A_example 0 = one
  /\ row_sum (A_hat layer_example) 0 = two.
Proof. split; [evaluate |]. split; evaluate. Qed.

Lemma forward_shape_error_witness :
  rows A_example = 3
  /\ cols A_example = 3
  /\ (0 <= 2)%Z
  /\ exists L,
       init rng_example (Z.of_nat 3) 2 A_example = Ok L
       /\ (rows A_row <> 3 \/ Z.of_nat (cols A_row) <> input_dim L ->
           returned (forward A_row L) = Err ShapeError)
       /\ (rows A_row = 3 -> Z.of_nat (cols A_row) = input_dim L ->
           returned (forward A_row L)
           = Ok (Torch.relu (pre_activation L A_row))).
Proof.
  split; [evaluate |]. split; [evaluate |]. split; [lia |].
  apply (forward_shape_error rng_example 3 2 A_example A_row);
    [evaluate | evaluate | lia].
Defined.

(** A feature matrix with one row is rejected by the example layer. *)
Example forward_rejects_row :
  returned (forward A_row layer_example) = Err ShapeError.
Proof. evaluate. Qed.

(** C4, counterexample: a single row of three entries is not square and
    has fewer rows than [input_dim = 3], yet construction succeeds. *)
Lemma init_accepts_row :
  rows A_row <> cols A_row
  /\ Z.of_nat (rows A_row) <> 3%Z
  /\ is_ok (init rng_example 3 2 A_row) = true.
Proof.
  split; [vm_compute; discriminate |].
  split; [vm_compute; discriminate | evaluate].
Qed.

Lemma forward_output_range_witness :
  is_matrix 3 3 A_example = true
  /\ is_matrix 3 3 X_example = true
  /\ (0 < 2)%Z
  /\ exists L H,
       init rng_example (Z.of_nat 3) 2 A_example = Ok L
       /\ returned (forward X_example L) = Ok H
       /\ rows H = 3 /\ cols H = Z.to_nat 2 /\ wf H = true
       /\ all_entries (fun x => is_nan x || nonneg x) H = true.
Proof.
  split; [evaluate |]. split; [evaluate |]. split; [lia |].
  apply (forward_output_range rng_example 3 2 A_example X_example);
    [evaluate | evaluate | lia].
Defined.

(** C5, counterexample: on a valid construction whose second node has no
    edge, the output entries are not-a-numbers, which are not at least 0. *)
Lemma forward_output_nan :
  is_matrix 2 2 A_iso = true
  /\ is_matrix 2 2 X_ones = true
  /\ init rng_example (Z.of_nat 2) 1 A_iso = Ok L_iso
  /\ returned (forward X_ones L_iso) = Ok H_nan
  /\ all_entries nonneg H_nan = false.
Proof.
  split; [evaluate |]. split; [evaluate |]. split; [evaluate |].
  split; evaluate.
Qed.



Lemma identity_adjacency_witness :
  is_matrix 2 2 X_ones = true
  /\ (0 <= 1)%Z
  /\ exists L H,
       init rng_example (Z.of_nat 2) 1 (identity 2) = Ok L
       /\ returned (forward X_ones L) = Ok H
       /\ (forall i, i < 2 -> row_sum (identity 2) i = one)
       /\ D_neg_sqrt L = identity 2
       /\ A_hat L = scaled_identity two 2
       /\ H = Torch.relu
                (Torch.mm (scaled_identity two 2) (Torch.mm X_ones (W L)))
       /\ (forall i l, i < 2 -> l < Z.to_nat 1 ->
           (forall k, k < 2 ->
              is_finite (get (Torch.mm X_ones (W L)) k l) = true) ->
           same_value (get H i l)
             (get (Torch.relu (scale two (Torch.mm X_ones (W L)))) i l)).
Proof.
  split; [evaluate |]. split; [lia |].
  apply (identity_adjacency rng_example 2 1 X_ones); [evaluate | lia].
Defined.

(** C7, counterexample: with the identity as adjacency matrix and
    features whose projection overflows to infinity in the first row, the
    second row of the output is a not-a-number, whereas the second row of
    [ReLU(2 (X . W))] is 0. *)
Lemma identity_overflow :
  is_matrix 2 2 X_big = true
  /\ init rng_example (Z.of_nat 2) 1 (identity 2) = Ok L_id2
  /\ returned (forward X_big L_id2) = Ok (mkTensor 2 1 [[inf]; [nan]])
  /\ Torch.relu (scale two (Torch.mm X_big (W L_id2)))
     = mkTensor 2 1 [[inf]; [zero]]
  /\ returned (forward X_big L_id2)
     <> Ok (Torch.relu (scale two (Torch.mm X_big (W L_id2)))).
Proof.
  split; [evaluate |]. split; [evaluate |]. split; [evaluate |].
  split; [evaluate |]. vm_compute; discriminate.
Qed.

(** The normalised adjacency [S] of the notebook's example: 2 for the
    first node, and the roundings of 1 and 1/2 for the two linked nodes. *)
Example S_of_example :
  S_of layer_example
  = mkTensor 3 3
      [[two; zero; zero];
       [zero; S754_finite false 16777215 (-24);
        S754_finite false 16777215 (-25)];
       [zero; S754_finite false 16777215 (-25);
        S754_finite false 16777215 (-24)]].
Proof. evaluate. Qed.

(** * Further properties of the constructor and of [forward] *)

(** ** Any successful construction *)

Lemma length_diag t : length (Torch.diag t) = Nat.min (rows t) (cols t).
Proof. unfold Torch.diag. rewrite length_map, length_seq. reflexivity. Qed.

Lemma diag_embed_shape v :
  rows (Torch.diag_embed v) = length v /\ cols (Torch.diag_embed v) = length v.
Proof. split; reflexivity. Qed.

(** The fields of a layer that [init] returns, for any accepted [a]. *)
Lemma init_inv rng n o a L :
  init rng n o a = Ok L ->
  exists c,
    Torch.broadcast_dim (cols a) (rows a) = Some c
    /\ cols a = Z.to_nat n
    /\ input_dim L = n /\ output_dim L = o /\ A L = a
    /\ rows (A_hat L) = rows a /\ cols (A_hat L) = c
    /\ ones L = build (Z.to_nat n) (Z.to_nat n) (fun _ _ => one)
    /\ D L = Torch.diag_embed (Torch.diag (Torch.mm a (ones L)))
    /\ D_neg_sqrt L
       = Torch.diag_embed (Torch.diag (Torch.pow_neg_half (D L)))
    /\ W L = build (Z.to_nat n) (Z.to_nat o)
               (fun i j => rng (i * Z.to_nat o + j))
    /\ wf (A_hat L) = true.
Proof.
  unfold init, Torch.add, Torch.size0, Torch.eye, Torch.ones, Torch.rand,
    Torch.matmul, Torch.float.
  rewrite !build_rows, !build_cols, broadcast_dim_refl.
  destruct (Torch.broadcast_dim (cols a) (rows a)) as [c |] eqn:Ec;
    [| discriminate].
  cbn [bind].
  destruct ((n <? 0)%Z || (n <? 0)%Z); [discriminate |]. cbn [bind].
  rewrite build_rows.
  destruct (Nat.eqb_spec (cols a) (Z.to_nat n)) as [Hc |]; [| discriminate].
  cbn [bind].
  destruct ((n <? 0)%Z || (o <? 0)%Z); [discriminate |]. cbn [bind].
  intros H. inversion H; subst L; clear H. cbn.
  exists c. repeat split; try assumption. apply build_wf.
Qed.

Lemma init_shapes rng n o a L :
  init rng n o a = Ok L ->
  rows (D_neg_sqrt L) = Nat.min (rows a) (cols a)
  /\ cols (D_neg_sqrt L) = Nat.min (rows a) (cols a)
  /\ rows (D L) = Nat.min (rows a) (cols a)
  /\ cols (D L) = Nat.min (rows a) (cols a)
  /\ rows (W L) = cols a
  /\ cols (W L) = Z.to_nat (output_dim L).
Proof.
  intros H.
  destruct (init_inv rng n o a L H)
    as (c & Ec & Hc & Hi & Ho & HA & Hr & Hcc & Hones & HD & HDn & HW & _).
  assert (HDs : rows (D L) = Nat.min (rows a) (cols a)
                /\ cols (D L) = Nat.min (rows a) (cols a)).
  { rewrite HD. cbn [rows cols Torch.diag_embed build].
    rewrite length_diag, Hones. cbn [rows cols Torch.mm build].
    rewrite <- Hc. split; reflexivity. }
  destruct HDs as [HDr HDc].
  rewrite HDn. cbn [rows cols Torch.diag_embed build].
  rewrite length_diag. cbn [rows cols Torch.pow_neg_half build].
  rewrite HDr, HDc, Nat.min_id, HW, Ho. cbn [rows cols build].
  rewrite Hc. repeat split.
Qed.

Lemma get_diag_embed v i j :
  i < length v -> j < length v -> i <> j ->
  get (Torch.diag_embed v) i j = zero.
Proof.
  intros Hi Hj Hij. unfold Torch.diag_embed.
  rewrite get_build by assumption.
  destruct (Nat.eqb_spec i j); [contradiction | reflexivity].
Qed.

(** X2: every successful construction stores its arguments, tensors
    whose entries agree with their sizes, square diagonal [D] and
    [D_neg_sqrt] of the smaller size of [a], a square matrix of the size
    [input_dim] whose every entry is 1, and [input_dim] by [output_dim]
    weights that are the generator's draws, row by row. *)
Theorem init_invariants rng (n o : Z) (a : Tensor) :
  is_ok (init rng n o a) = true ->
  exists L,
    init rng n o a = Ok L
    /\ input_dim L = n /\ output_dim L = o /\ A L = a
    /\ wf (A_hat L) = true /\ wf (ones L) = true /\ wf (D L) = true
    /\ wf (D_neg_sqrt L) = true /\ wf (W L) = true
    /\ rows (A_hat L) = rows a
    /\ rows (ones L) = cols a /\ cols (ones L) = cols a
    /\ rows (D L) = Nat.min (rows a) (cols a)
    /\ cols (D L) = Nat.min (rows a) (cols a)
    /\ rows (D_neg_sqrt L) = Nat.min (rows a) (cols a)
    /\ cols (D_neg_sqrt L) = Nat.min (rows a) (cols a)
    /\ rows (W L) = cols a /\ Z.of_nat (cols (W L)) = o
    /\ (forall i j, i < Nat.min (rows a) (cols a) ->
        j < Nat.min (rows a) (cols a) -> i <> j ->
        get (D L) i j = zero /\ get (D_neg_sqrt L) i j = zero)
    /\ Z.of_nat (rows (ones L)) = n /\ Z.of_nat (rows (W L)) = n
    /\ (forall i j, i < cols a -> j < cols a -> get (ones L) i j = one)
    /\ (forall i j, i < cols a -> j < Z.to_nat o ->
        get (W L) i j = rng (i * Z.to_nat o + j)).
Proof.
  intros Hok.
  destruct (init rng n o a) as [L | e] eqn:E; [| discriminate].
  exists L. split; [reflexivity |].
  pose proof (proj1 (init_ok_iff rng n o a)) as Hacc.
  rewrite E in Hacc. destruct (Hacc eq_refl) as (Hn & Ho & _ & _).
  destruct (init_inv rng n o a L E)
    as (c & Ec & Hc & Hi & Hoo & HA & Hr & Hcc & Hones & HD & HDn & HW & Hwf).
  destruct (init_shapes rng n o a L E) as (S1 & S2 & S3 & S4 & S5 & S6).
  split; [exact Hi |]. split; [exact Hoo |]. split; [exact HA |].
  split; [exact Hwf |].
  split; [rewrite Hones; apply build_wf |].
  split; [rewrite HD; apply build_wf |].
  split; [rewrite HDn; apply build_wf |].
  split; [rewrite HW; apply build_wf |].
  split; [exact Hr |].
  split; [rewrite Hones, Hc; reflexivity |].
  split; [rewrite Hones, Hc; reflexivity |].
  split; [exact S3 |]. split; [exact S4 |].
  split; [exact S1 |]. split; [exact S2 |].
  split; [exact S5 |].
  split; [rewrite S6, Hoo; lia |].
  split.
  - intros i j Hi' Hj' Hij. split.
    + rewrite HD. apply get_diag_embed; try assumption.
      * rewrite HD in S3. cbn [rows Torch.diag_embed build] in S3.
        rewrite S3. exact Hi'.
      * rewrite HD in S3. cbn [rows Torch.diag_embed build] in S3.
        rewrite S3. exact Hj'.
    + rewrite HDn. apply get_diag_embed; try assumption.
      * rewrite HDn in S1. cbn [rows Torch.diag_embed build] in S1.
        rewrite S1. exact Hi'.
      * rewrite HDn in S1. cbn [rows Torch.diag_embed build] in S1.
        rewrite S1. exact Hj'.
  - split; [rewrite Hones; cbn [rows build]; lia |].
    split; [rewrite HW; cbn [rows build]; lia |].
    split.
    + intros i j Hi' Hj'. rewrite Hones, <- Hc. apply get_build; assumption.
    + intros i j Hi' Hj'. rewrite HW, <- Hc. apply get_build; assumption.
Qed.

(** X3: a layer built from a non-empty matrix that is not square rejects
    every input. *)
Theorem non_square_layer_fails rng (n o : Z) (a : Tensor) :
  is_ok (init rng n o a) = true ->
  rows a <> cols a -> 0 < rows a ->
  exists L,
    init rng n o a = Ok L
    /\ forall X, returned (forward X L) = Err ShapeError.
Proof.
  intros Hok Hns Hr0.
  destruct (init rng n o a) as [L | e] eqn:E; [| discriminate].
  exists L. split; [reflexivity |]. intros X.
  destruct (init_inv rng n o a L E)
    as (c & Ec & _ & _ & _ & _ & Hr & Hcc & _).
  destruct (init_shapes rng n o a L E) as (S1 & S2 & _).
  rewrite forward_unfold, Hcc, S1, S2, Hr.
  assert (Hf : (c =? Nat.min (rows a) (cols a))
               && (Nat.min (rows a) (cols a) =? rows a) = false).
  { unfold Torch.broadcast_dim in Ec.
    destruct (Nat.eqb_spec (cols a) (rows a)) as [Heq | _];
      [symmetry in Heq; contradiction |].
    destruct (Nat.eqb_spec (cols a) 1) as [Hc1 | Hc1].
    - inversion Ec; subst c. rewrite Hc1.
      destruct (Nat.eqb_spec (rows a) (Nat.min (rows a) 1)); [lia |].
      reflexivity.
    - destruct (Nat.eqb_spec (rows a) 1) as [Hr1 | _]; [| discriminate].
      inversion Ec; subst c. rewrite Hr1.
      destruct (Nat.eqb_spec (cols a) (Nat.min 1 (cols a))) as [E1 | _];
        [| reflexivity].
      destruct (Nat.eqb_spec (Nat.min 1 (cols a)) 1); [lia | reflexivity]. }
  rewrite Hf. reflexivity.
Qed.

(** X1: on any layer, [forward] succeeds exactly when the four sizes it
    multiplies agree, and what it returns has the rows of [D_neg_sqrt],
    the columns of [W], and entries that are not-a-number or at least 0. *)
Theorem forward_contract (X : Tensor) (self : GCNLayer) :
  (is_ok (forward X self) = true <->
   cols (A_hat self) = rows (D_neg_sqrt self)
   /\ cols (D_neg_sqrt self) = rows (A_hat self)
   /\ cols X = rows (W self)
   /\ cols (D_neg_sqrt self) = rows X)
  /\ (forall H, returned (forward X self) = Ok H ->
      rows H = rows (D_neg_sqrt self) /\ cols H = cols (W self)
      /\ wf H = true
      /\ all_entries (fun x => is_nan x || nonneg x) H = true).
Proof.
  rewrite forward_unfold. split.
  - destruct (Nat.eqb_spec (cols (A_hat self)) (rows (D_neg_sqrt self)));
      destruct (Nat.eqb_spec (cols (D_neg_sqrt self)) (rows (A_hat self)));
      destruct (Nat.eqb_spec (cols X) (rows (W self)));
      destruct (Nat.eqb_spec (cols (D_neg_sqrt self)) (rows X));
      cbn [andb is_ok]; split; try discriminate; try tauto; reflexivity.
  - intros H.
    destruct (_ && _); [| discriminate].
    cbn [returned]. intros E; inversion E; subst H; clear E.
    unfold Torch.relu. rewrite build_rows, build_cols.
    split; [reflexivity |]. split; [reflexivity |].
    split; [apply build_wf |].
    apply all_entries_build. intros i j _ _.
    destruct (relu_range (get (pre_activation self X) i j)) as [E | E];
      rewrite E; [reflexivity | apply orb_true_r].
Qed.

(** ** Values that spread through the products *)

Lemma mul_nan_r x y : is_nan y = true -> is_nan (F32.mul x y) = true.
Proof. destruct y; try discriminate; destruct x; reflexivity. Qed.

Lemma pow_neg_half_nan x :
  is_nan x = true -> is_nan (F32.pow_neg_half x) = true.
Proof. destruct x; try discriminate; reflexivity. Qed.


Section Spreading.

Variables (dn ah p : Tensor) (n : nat).
Hypothesis dn_rows : rows dn = n.
Hypothesis dn_cols : cols dn = n.
Hypothesis ah_rows : rows ah = n.
Hypothesis ah_cols : cols ah = n.

(** A not-a-number on the diagonal of [dn] fills [(dn . (ah . dn)) . p]. *)
Lemma nan_degree_fills j i l :
  j < n -> is_nan (get dn j j) = true ->
  i < n -> l < cols p ->
  is_nan (get (Torch.mm (Torch.mm dn (Torch.mm ah dn)) p) i l) = true.
Proof.
  intros Hj Hjj Hi Hl.
  assert (HM : forall k, k < n -> is_nan (get (Torch.mm ah dn) k j) = true).
  { intros k Hk. rewrite get_mm by lia. unfold Torch.dot.
    apply (sum_nan _ (cols ah) j); [lia |]. apply mul_nan_r; exact Hjj. }
  assert (HS : is_nan (get (Torch.mm dn (Torch.mm ah dn)) i j) = true).
  { rewrite get_mm by (unfold Torch.mm; simpl; lia). unfold Torch.dot.
    apply (sum_nan _ (cols dn) j); [lia |]. apply mul_nan_r, HM; exact Hj. }
  rewrite get_mm by (unfold Torch.mm; simpl; lia). unfold Torch.dot.
  apply (sum_nan _ _ j); [unfold Torch.mm; simpl; lia |].
  apply mul_nan_l; exact HS.
Qed.

End Spreading.

(** A not-a-number in row [k] of [p] fills column-wise [s . p]. *)
Lemma nan_row_fills s p k i l :
  k < cols s -> i < rows s -> l < cols p ->
  is_nan (get p k l) = true ->
  is_nan (get (Torch.mm s p) i l) = true.
Proof.
  intros Hk Hi Hl Hn. rewrite get_mm by assumption. unfold Torch.dot.
  apply (sum_nan _ (cols s) k Hk). apply mul_nan_r; exact Hn.
Qed.

(** A zero of [s] against an entry of [p] that is not finite gives a
    not-a-number. *)
Lemma zero_times_nonfinite_fills s p k i l :
  k < cols s -> i < rows s -> l < cols p ->
  is_zero (get s i k) = true -> is_finite (get p k l) = false ->
  is_nan (get (Torch.mm s p) i l) = true.
Proof.
  intros Hk Hi Hl Hz Hn. rewrite get_mm by assumption. unfold Torch.dot.
  apply (sum_nan _ (cols s) k Hk). apply mul_zero_nonfinite; assumption.
Qed.

Lemma degree_nan a k c :
  c < cols a -> is_nan (get a k c) = true -> is_nan (degree a k) = true.
Proof.
  intros Hc Hn. unfold degree, Torch.dot.
  apply (sum_nan _ (cols a) c Hc). apply mul_nan_l; exact Hn.
Qed.

(** X8: a not-a-number feature makes every entry of the output a
    not-a-number. *)
Theorem nan_feature_fills_output rng (n : nat) (o : Z) (a X : Tensor)
    (k c : nat) :
  rows a = n -> cols a = n -> rows X = n -> cols X = n -> (0 <= o)%Z ->
  k < n -> c < n -> is_nan (get X k c) = true ->
  exists L H,
    init rng (Z.of_nat n) o a = Ok L
    /\ returned (forward X L) = Ok H
    /\ forall i l, i < n -> l < Z.to_nat o -> is_nan (get H i l) = true.
Proof.
  intros Hr Hc HrX HcX Ho Hk Hcn Hn.
  destruct (constructed_shapes rng n o a Hr Hc)
    as (H1 & H2 & H3 & H4 & H5 & H6).
  set (L := constructed rng n o a) in *.
  exists L, (Torch.relu (pre_activation L X)).
  split; [apply init_square; assumption |].
  split; [unfold L; rewrite (forward_constructed rng n o a X Hr Hc HrX HcX);
          reflexivity |].
  intros i l Hi Hl.
  destruct (pre_activation_shape rng n o a X Hr Hc) as (Hpr & Hpc).
  fold L in Hpr, Hpc.
  rewrite get_relu by lia. apply relu_nan.
  unfold pre_activation.
  apply (nan_row_fills (S_of L) (P_of L X) k i l).
  - unfold S_of, Torch.mm. rewrite build_cols, H4. exact Hk.
  - unfold S_of, Torch.mm. rewrite build_rows, H3. exact Hi.
  - unfold P_of, Torch.mm. rewrite build_cols, H6. exact Hl.
  - unfold P_of. rewrite get_mm by lia. unfold Torch.dot.
    apply (sum_nan _ (cols X) c); [lia |]. apply mul_nan_l; exact Hn.
Qed.

(** X9: a not-a-number edge weight makes the inverse square root of its
    node's degree, and every entry of the output, a not-a-number. *)
Theorem nan_weight_fills_output rng (n : nat) (o : Z) (a X : Tensor)
    (k c : nat) :
  rows a = n -> cols a = n -> rows X = n -> cols X = n -> (0 <= o)%Z ->
  k < n -> c < n -> is_nan (get a k c) = true ->
  exists L H,
    init rng (Z.of_nat n) o a = Ok L
    /\ returned (forward X L) = Ok H
    /\ is_nan (get (D_neg_sqrt L) k k) = true
    /\ forall i l, i < n -> l < Z.to_nat o -> is_nan (get H i l) = true.
Proof.
  intros Hr Hc HrX HcX Ho Hk Hcn Hn.
  destruct (constructed_shapes rng n o a Hr Hc)
    as (H1 & H2 & H3 & H4 & H5 & H6).
  pose proof (D_neg_sqrt_constructed rng n o a Hr Hc) as HD.
  destruct (pre_activation_shape rng n o a X Hr Hc) as (Hpr & Hpc).
  set (L := constructed rng n o a) in *.
  assert (Hkk : is_nan (get (D_neg_sqrt L) k k) = true).
  { rewrite HD, get_diag_matrix, Nat.eqb_refl by exact Hk.
    apply pow_neg_half_nan. apply (degree_nan a k c); [lia | exact Hn]. }
  exists L, (Torch.relu (pre_activation L X)).
  split; [apply init_square; assumption |].
  split; [unfold L; rewrite (forward_constructed rng n o a X Hr Hc HrX HcX);
          reflexivity |].
  split; [exact Hkk |].
  intros i l Hi Hl.
  rewrite get_relu by lia. apply relu_nan.
  unfold pre_activation, S_of.
  apply (nan_degree_fills (D_neg_sqrt L) (A_hat L) (P_of L X) n) with (j := k);
    assumption.
Qed.


(** X11: on any layer, where the normalised adjacency has a zero and the
    projected features are not finite, the output is a not-a-number. *)
Theorem overflow_reaches_other_nodes (X : Tensor) (self : GCNLayer)
    (i k l : nat) :
  is_ok (forward X self) = true ->
  i < rows (D_neg_sqrt self) -> k < rows X -> l < cols (W self) ->
  is_zero (get (S_of self) i k) = true ->
  is_finite (get (P_of self X) k l) = false ->
  exists H, returned (forward X self) = Ok H /\ is_nan (get H i l) = true.
Proof.
  intros Hok Hi Hk Hl Hz Hn.
  rewrite forward_unfold in Hok |- *.
  destruct (Nat.eqb_spec (cols (A_hat self)) (rows (D_neg_sqrt self)));
    [| discriminate].
  destruct (Nat.eqb_spec (cols (D_neg_sqrt self)) (rows (A_hat self)));
    [| discriminate].
  destruct (Nat.eqb_spec (cols X) (rows (W self))); [| discriminate].
  destruct (Nat.eqb_spec (cols (D_neg_sqrt self)) (rows X)) as [E4 |];
    [| discriminate].
  cbn [andb returned].
  eexists. split; [reflexivity |].
  assert (HrS : rows (S_of self) = rows (D_neg_sqrt self)) by reflexivity.
  assert (HcS : cols (S_of self) = cols (D_neg_sqrt self)) by reflexivity.
  assert (HcP : cols (P_of self X) = cols (W self)) by reflexivity.
  rewrite get_relu
    by (unfold pre_activation, Torch.mm; rewrite ?build_rows, ?build_cols;
        lia).
  apply relu_nan. unfold pre_activation.
  apply (zero_times_nonfinite_fills (S_of self) (P_of self X) k i l);
    try assumption; lia.
Qed.

(** ** Products with a diagonal matrix *)

Lemma same_value_trans x y z :
  same_value x y -> same_value y z -> same_value x z.
Proof.
  intros [-> | [Hx Hy]] [-> | [Hy' Hz]].
  - left; reflexivity.
  - right; split; assumption.
  - right; split; assumption.
  - right; split; assumption.
Qed.

Lemma same_value_finite x y :
  same_value x y -> is_finite y = true -> is_finite x = true.
Proof.
  intros [-> | [Hx _]] Hy; [exact Hy |].
  destruct x; try discriminate; reflexivity.
Qed.

Lemma mul_same_value_r x z z' :
  same_value z z' -> same_value (F32.mul x z) (F32.mul x z').
Proof.
  intros [-> | [Hz Hz']]; [left; reflexivity |].
  destruct z as [sz | | |]; try discriminate.
  destruct z' as [sz' | | |]; try discriminate.
  destruct x as [sx | sx | | sx mx ex].
  - right; split; reflexivity.
  - left; reflexivity.
  - left; reflexivity.
  - right; split; reflexivity.
Qed.

Lemma mul_finite_zero x y :
  is_finite x = true -> is_zero y = true -> is_zero (F32.mul x y) = true.
Proof.
  destruct y as [sy | | |]; try discriminate.
  destruct x as [sx | | | sx mx ex]; try discriminate; reflexivity.
Qed.

Lemma mul_finite_inv x y :
  is_finite (F32.mul x y) = true ->
  is_finite x = true /\ is_finite y = true.
Proof.
  intros H. split.
  - destruct (is_finite x) eqn:E; [reflexivity |].
    rewrite (mul_nonfinite_l x y E) in H. discriminate.
  - destruct (is_finite y) eqn:E; [reflexivity |].
    rewrite (mul_nonfinite_r x y E) in H. discriminate.
Qed.

Lemma add_zero_r_same x : same_value (F32.add x zero) x.
Proof.
  destruct x as [[|] | [|] | | sx mx ex];
    try (left; reflexivity).
  right; split; reflexivity.
Qed.

Lemma relu_is_zero x : is_zero x = true -> is_zero (F32.relu x) = true.
Proof. destruct x as [[|] | | |]; try discriminate; reflexivity. Qed.

Lemma sum_is_zero t k :
  (forall l, l < k -> is_zero (t l) = true) ->
  is_zero (Torch.sum t k) = true.
Proof.
  intros Hz. unfold Torch.sum.
  apply (fold_is_zero t); [| reflexivity].
  intros x Hx. apply in_seq in Hx. apply Hz; lia.
Qed.


(** X7: without a bias term, zero features give a zero output on any layer
    whose normalised adjacency and weights are finite. *)
Theorem zero_features_zero_output (X : Tensor) (self : GCNLayer) :
  is_ok (forward X self) = true ->
  all_entries is_finite (S_of self) = true ->
  all_entries is_finite (W self) = true ->
  all_entries is_zero X = true ->
  exists H,
    returned (forward X self) = Ok H
    /\ rows H = rows (D_neg_sqrt self) /\ cols H = cols (W self)
    /\ all_entries is_zero H = true.
Proof.
  intros Hok HS HW HX.
  rewrite forward_unfold in Hok |- *.
  destruct (_ && _); [| discriminate]. cbn [returned].
  eexists. split; [reflexivity |].
  split; [reflexivity |]. split; [reflexivity |].
  assert (HP : forall k l, is_zero (get (P_of self X) k l) = true).
  { intros k l. apply all_entries_get; [| reflexivity].
    unfold P_of, Torch.mm. apply all_entries_build. intros i j _ _.
    unfold Torch.dot. apply sum_is_zero. intros c _.
    apply mul_zero_finite.
    - apply all_entries_get; [exact HX | reflexivity].
    - apply all_entries_get; [exact HW | reflexivity]. }
  unfold Torch.relu. apply all_entries_build. intros i l _ _.
  apply relu_is_zero.
  destruct (Nat.lt_ge_cases i (rows (pre_activation self X))) as [Hi | Hi];
    [destruct (Nat.lt_ge_cases l (cols (pre_activation self X)))
       as [Hl | Hl] |].
  - unfold pre_activation in *. rewrite get_mm by assumption.
    unfold Torch.dot. apply sum_is_zero. intros k _.
    apply mul_finite_zero; [| apply HP].
    apply all_entries_get; [exact HS | reflexivity].
  - apply all_entries_get; [| reflexivity].
    unfold pre_activation, Torch.mm. apply all_entries_build.
    intros i' l' _ _. unfold Torch.dot. apply sum_is_zero. intros k _.
    apply mul_finite_zero; [| apply HP].
    apply all_entries_get; [exact HS | reflexivity].
  - apply all_entries_get; [| reflexivity].
    unfold pre_activation, Torch.mm. apply all_entries_build.
    intros i' l' _ _. unfold Torch.dot. apply sum_is_zero. intros k _.
    apply mul_finite_zero; [| apply HP].
    apply all_entries_get; [exact HS | reflexivity].
Qed.

(** X4: adding the self-loops leaves every off-diagonal weight as it was,
    up to the sign of a zero, and adds 1 on the diagonal. *)
Theorem self_loops_only_on_diagonal rng (n : nat) (o : Z) (a : Tensor) :
  rows a = n -> cols a = n -> (0 <= o)%Z ->
  exists L,
    init rng (Z.of_nat n) o a = Ok L
    /\ forall i j, i < n -> j < n ->
       (i <> j -> same_value (get (A_hat L) i j) (get a i j))
       /\ get (A_hat L) i i = F32.add (get a i i) one.
Proof.
  intros Hr Hc Ho.
  exists (constructed rng n o a).
  split; [apply init_square; assumption |].
  intros i j Hi Hj. cbn [A_hat constructed]. unfold plus_identity.
  rewrite !get_build by assumption. split.
  - intros Hij. destruct (Nat.eqb_spec i j); [contradiction |].
    apply add_zero_r_same.
  - rewrite Nat.eqb_refl. reflexivity.
Qed.

(** X12: the graph without nodes is accepted and gives an output without
    rows. *)
Theorem empty_graph rng (o : Z) (a X : Tensor) :
  rows a = 0 -> cols a = 0 -> rows X = 0 -> cols X = 0 -> (0 <= o)%Z ->
  exists L,
    init rng 0 o a = Ok L
    /\ returned (forward X L) = Ok (mkTensor 0 (Z.to_nat o) []).
Proof.
  intros Hr Hc HrX HcX Ho.
  exists (constructed rng 0 o a).
  split; [apply (init_square rng 0 o a); assumption |].
  rewrite (forward_constructed rng 0 o a X Hr Hc HrX HcX).
  cbn [returned]. f_equal.
  destruct (pre_activation_shape rng 0 o a X Hr Hc) as (Hpr & Hpc).
  unfold Torch.relu. rewrite Hpr, Hpc. reflexivity.
Qed.

(** X13: whatever weights are drawn, the example cell returns the 3 by 2
    matrix [ReLU(S . (X . W))] for one fixed [S]; its first node, linked
    to itself only, gets [ReLU(2 (X . W))] where that column of [X . W]
    is finite. *)
Theorem example_usage_output (rng : nat -> f32) :
  exists H,
    example_usage rng = Ok H
    /\ H = Torch.relu
             (Torch.mm S_example (Torch.mm X_example (W_example rng)))
    /\ rows H = 3 /\ cols H = 2
    /\ forall l, l < 2 ->
       (forall k, k < 3 ->
          is_finite (get (Torch.mm X_example (W_example rng)) k l) = true) ->
       same_value (get H 0 l)
         (F32.relu
            (F32.mul two (get (Torch.mm X_example (W_example rng)) 0 l))).
Proof.
  unfold example_usage.
  change 3%Z with (Z.of_nat 3).
  rewrite (init_square rng 3 2 A_example) by (reflexivity || lia).
  cbn [bind].
  rewrite (forward_constructed rng 3 2 A_example X_example)
    by reflexivity.
  cbn [returned]. eexists. split; [reflexivity |].
  assert (HS : S_of (constructed rng 3 2 A_example) = S_example)
    by (vm_compute; reflexivity).
  unfold pre_activation. rewrite HS. unfold P_of.
  change (W (constructed rng 3 2 A_example)) with (W_example rng).
  split; [reflexivity |]. split; [reflexivity |]. split; [reflexivity |].
  intros l Hl Hfin.
  set (P := Torch.mm X_example (W_example rng)) in *.
  rewrite get_relu by (simpl; lia).
  apply relu_same_value.
  rewrite get_mm by (simpl; lia). unfold Torch.dot.
  change (cols S_example) with 3.
  apply (sum_single_same
           (fun k => F32.mul (get S_example 0 k) (get P k l)) 3 0);
    [lia |].
  intros k Hk Hk0.
  apply mul_zero_finite; [| apply Hfin; exact Hk].
  destruct k as [| [| [| k]]]; [lia | reflexivity | reflexivity | lia].
Qed.




(** ** Instances of the further properties *)

Lemma non_square_layer_fails_witness :
  is_ok (init rng_example 3 2 A_row) = true
  /\ rows A_row <> cols A_row
  /\ 0 < rows A_row
  /\ exists L,
       init rng_example 3 2 A_row = Ok L
       /\ forall X, returned (forward X L) = Err ShapeError.
Proof.
  split; [evaluate |]. split; [vm_compute; discriminate |].
  split; [vm_compute; lia |].
  apply (non_square_layer_fails rng_example 3 2 A_row);
    [evaluate | vm_compute; discriminate | vm_compute; lia].
Defined.

Lemma self_loops_only_on_diagonal_witness :
  rows A_example = 3 /\ cols A_example = 3 /\ (0 <= 2)%Z
  /\ exists L,
       init rng_example (Z.of_nat 3) 2 A_example = Ok L
       /\ forall i j, i < 3 -> j < 3 ->
          (i <> j -> same_value (get (A_hat L) i j) (get A_example i j))
          /\ get (A_hat L) i i = F32.add (get A_example i i) one.
Proof.
  split; [evaluate |]. split; [evaluate |]. split; [lia |].
  apply (self_loops_only_on_diagonal rng_example 3 2 A_example);
    [evaluate | evaluate | lia].
Defined.


Lemma zero_features_zero_output_witness :
  is_ok (forward X_zero layer_example) = true
  /\ all_entries is_finite (S_of layer_example) = true
  /\ all_entries is_finite (W layer_example) = true
  /\ all_entries is_zero X_zero = true
  /\ exists H,
       returned (forward X_zero layer_example) = Ok H
       /\ rows H = rows (D_neg_sqrt layer_example)
       /\ cols H = cols (W layer_example)
       /\ all_entries is_zero H = true.
Proof.
  split; [evaluate |]. split; [evaluate |]. split; [evaluate |].
  split; [evaluate |].
  apply (zero_features_zero_output X_zero layer_example); evaluate.
Defined.

Lemma nan_feature_fills_output_witness :
  rows A_example = 3 /\ cols A_example = 3
  /\ rows X_nan = 3 /\ cols X_nan = 3 /\ (0 <= 2)%Z
  /\ 0 < 3 /\ 1 < 3 /\ is_nan (get X_nan 0 1) = true
  /\ exists L H,
       init rng_example (Z.of_nat 3) 2 A_example = Ok L
       /\ returned (forward X_nan L) = Ok H
       /\ forall i l, i < 3 -> l < Z.to_nat 2 -> is_nan (get H i l) = true.
Proof.
  split; [evaluate |]. split; [evaluate |]. split; [evaluate |].
  split; [evaluate |]. split; [lia |]. split; [lia |]. split; [lia |].
  split; [evaluate |].
  apply (nan_feature_fills_output rng_example 3 2 A_example X_nan 0 1);
    [evaluate | evaluate | evaluate | evaluate | lia | lia | lia | evaluate].
Defined.

Lemma nan_weight_fills_output_witness :
  rows A_nan = 2 /\ cols A_nan = 2
  /\ rows X_ones = 2 /\ cols X_ones = 2 /\ (0 <= 1)%Z
  /\ 0 < 2 /\ 1 < 2 /\ is_nan (get A_nan 0 1) = true
  /\ exists L H,
       init rng_example (Z.of_nat 2) 1 A_nan = Ok L
       /\ returned (forward X_ones L) = Ok H
       /\ is_nan (get (D_neg_sqrt L) 0 0) = true
       /\ forall i l, i < 2 -> l < Z.to_nat 1 -> is_nan (get H i l) = true.
Proof.
  split; [evaluate |]. split; [evaluate |]. split; [evaluate |].
  split; [evaluate |]. split; [lia |]. split; [lia |]. split; [lia |].
  split; [evaluate |].
  apply (nan_weight_fills_output rng_example 2 1 A_nan X_ones 0 1);
    [evaluate | evaluate | evaluate | evaluate | lia | lia | lia | evaluate].
Defined.


Lemma overflow_reaches_other_nodes_witness :
  is_ok (forward X_big L_id2) = true
  /\ 1 < rows (D_neg_sqrt L_id2)
  /\ 0 < rows X_big
  /\ 0 < cols (W L_id2)
  /\ is_zero (get (S_of L_id2) 1 0) = true
  /\ is_finite (get (P_of L_id2 X_big) 0 0) = false
  /\ exists H,
       returned (forward X_big L_id2) = Ok H /\ is_nan (get H 1 0) = true.
Proof.
  split; [evaluate |]. split; [vm_compute; lia |].
  split; [vm_compute; lia |]. split; [vm_compute; lia |].
  split; [evaluate |]. split; [evaluate |].
  apply (overflow_reaches_other_nodes X_big L_id2 1 0 0);
    [evaluate | vm_compute; lia | vm_compute; lia | vm_compute; lia
    | evaluate | evaluate].
Defined.

Lemma empty_graph_witness :
  rows T_empty = 0 /\ cols T_empty = 0
  /\ rows T_empty = 0 /\ cols T_empty = 0 /\ (0 <= 2)%Z
  /\ exists L,
       init rng_example 0 2 T_empty = Ok L
       /\ returned (forward T_empty L) = Ok (mkTensor 0 (Z.to_nat 2) []).
Proof.
  split; [evaluate |]. split; [evaluate |]. split; [evaluate |].
  split; [evaluate |]. split; [lia |].
  apply (empty_graph rng_example 2 T_empty T_empty);
    [evaluate | evaluate | evaluate | evaluate | lia].
Defined.

(** * Properties that hold in every order of accumulation *)

(** ** Rounding depends on the value only *)

Section Scaling.

Local Open Scope Z_scope.

Lemma iter_pos_iter (B : Type) (f : B -> B) (p : positive) : forall x,
  iter_pos f p x = Pos.iter f x p.
Proof.
  induction p as [p IH | p IH |]; intros x; simpl.
  - rewrite !IH, !Pos.iter_swap. reflexivity.
  - rewrite !IH. reflexivity.
  - reflexivity.
Qed.

Lemma shr_1_double m :
  shr_1 (Build_shr_record (Z.pos m~0) false false)
  = Build_shr_record (Z.pos m) false false.
Proof. reflexivity. Qed.

(** Shifting out the zeros that a scaling by a power of two put in. *)
Lemma shr_iter_scaled k : forall m,
  Pos.iter shr_1 (Build_shr_record (Z.pos (Pos.iter xO m k)) false false) k
  = Build_shr_record (Z.pos m) false false.
Proof.
  induction k as [| k IH] using Pos.peano_ind; intros m.
  - reflexivity.
  - rewrite (Pos.iter_succ k positive xO m).
    rewrite (Pos.iter_succ k _ shr_1), <- Pos.iter_swap.
    rewrite shr_1_double. apply IH.
Qed.

Lemma iter_xO_add m p q :
  Pos.iter xO (Pos.iter xO m p) q = Pos.iter xO m (p + q).
Proof. rewrite Pos.add_comm. symmetry. apply Pos.iter_add. Qed.

Lemma shr_scaled m k e n :
  0 <= n ->
  shr (Build_shr_record (Z.pos (Pos.iter xO m k)) false false) (e - Z.pos k)
      (n + Z.pos k)
  = shr (Build_shr_record (Z.pos m) false false) e n.
Proof.
  intros Hn. unfold shr.
  destruct n as [| n | n]; [| | lia].
  - cbn [Z.add]. rewrite iter_pos_iter, shr_iter_scaled. f_equal. lia.
  - change (Z.pos n + Z.pos k) with (Z.pos (n + k)).
    rewrite !iter_pos_iter, Pos.iter_add, shr_iter_scaled. f_equal. lia.
Qed.

Lemma shr_scaled_part m k e n :
  0 <= n -> n < Z.pos k ->
  shr (Build_shr_record (Z.pos (Pos.iter xO m k)) false false) (e - Z.pos k) n
  = (Build_shr_record (Z.pos (Pos.iter xO m (Z.to_pos (Z.pos k - n))))
       false false, e - Z.pos k + n).
Proof.
  intros Hn Hk. unfold shr.
  destruct n as [| n | n]; [| | lia].
  - rewrite Z.sub_0_r, Z.add_0_r. reflexivity.
  - assert (E : exists q, Z.pos k - Z.pos n = Z.pos q /\ k = (q + n)%positive).
    { exists (Z.to_pos (Z.pos k - Z.pos n)). lia. }
    destruct E as (q & E1 & E2). rewrite E1. cbn [Z.to_pos].
    rewrite E2 at 1. rewrite <- iter_xO_add.
    rewrite iter_pos_iter, shr_iter_scaled. reflexivity.
Qed.

Lemma binary_round_aux_shr s m e m' e' :
  shr_fexp prec emax m e loc_Exact = shr_fexp prec emax m' e' loc_Exact ->
  binary_round_aux prec emax s m e loc_Exact
  = binary_round_aux prec emax s m' e' loc_Exact.
Proof. intros H. unfold binary_round_aux. rewrite H. reflexivity. Qed.

(** Rounding depends on the value only: scaling the mantissa by a power
    of two and lowering the exponent accordingly gives the same result. *)
Lemma binary_round_scale s m e k :
  binary_round prec emax s (Pos.iter xO m k) (e - Z.pos k)
  = binary_round prec emax s m e.
Proof.
  unfold binary_round.
  rewrite digits2_pos_iter_xO.
  replace (Z.pos (digits2_pos m) + Z.pos k + (e - Z.pos k))
    with (Z.pos (digits2_pos m) + e) by lia.
  set (X := Z.pos (digits2_pos m) + e).
  set (t := fexp prec emax X).
  unfold shl_align.
  destruct (Z_lt_le_dec (t - e + Z.pos k) 0) as [Ha | Ha].
  - (* both are shifted left to the exponent [t] *)
    destruct (t - (e - Z.pos k)) as [| d' | d'] eqn:E'; try lia.
    destruct (t - e) as [| d | d] eqn:E; try lia.
    rewrite iter_xO_add. replace (k + d')%positive with d by lia.
    reflexivity.
  - destruct (Z_lt_le_dec (t - e) 0) as [Hb | Hb].
    + destruct (t - e) as [| d | d] eqn:E; try lia.
      assert (E1 : (match t - (e - Z.pos k) with
                    | Z.neg d0 => (Pos.iter xO (Pos.iter xO m k) d0, t)
                    | _ => (Pos.iter xO m k, e - Z.pos k)
                    end) = (Pos.iter xO m k, e - Z.pos k)).
      { destruct (t - (e - Z.pos k)) eqn:E'; try reflexivity; lia. }
      rewrite E1.
      apply binary_round_aux_shr. unfold shr_fexp.
      cbn [Zdigits2 shr_record_of_loc].
      rewrite !digits2_pos_iter_xO.
      replace (Z.pos (digits2_pos m) + Z.pos k + (e - Z.pos k)) with X
        by (unfold X; lia).
      replace (Z.pos (digits2_pos m) + Z.pos d + t) with X
        by (unfold X; lia).
      fold t.
      rewrite shr_scaled_part by lia.
      replace (t - t) with 0 by lia. cbn [shr].
      replace (Z.pos k - (t - (e - Z.pos k))) with (Z.pos d) by lia.
      cbn [Z.to_pos]. f_equal. lia.
    + assert (E1 : (match t - (e - Z.pos k) with
                    | Z.neg d0 => (Pos.iter xO (Pos.iter xO m k) d0, t)
                    | _ => (Pos.iter xO m k, e - Z.pos k)
                    end) = (Pos.iter xO m k, e - Z.pos k)).
      { destruct (t - (e - Z.pos k)) eqn:E'; try reflexivity; lia. }
      assert (E2 : (match t - e with
                    | Z.neg d0 => (Pos.iter xO m d0, t)
                    | _ => (m, e)
                    end) = (m, e)).
      { destruct (t - e) eqn:E'; try reflexivity; lia. }
      rewrite E1, E2.
      apply binary_round_aux_shr. unfold shr_fexp.
      cbn [Zdigits2 shr_record_of_loc].
      rewrite !digits2_pos_iter_xO.
      replace (Z.pos (digits2_pos m) + Z.pos k + (e - Z.pos k)) with X
        by (unfold X; lia).
      fold X. fold t.
      replace (t - (e - Z.pos k)) with ((t - e) + Z.pos k) by lia.
      apply shr_scaled. lia.
Qed.

Lemma iter_xO_mul m k : Z.pos (Pos.iter xO m k) = Z.pos m * 2 ^ Z.pos k.
Proof.
  induction k as [| k IH] using Pos.peano_ind.
  - simpl. lia.
  - rewrite Pos.iter_succ, Pos2Z.inj_xO, IH, Pos2Z.inj_succ, Z.pow_succ_r
      by lia.
    lia.
Qed.

Lemma binary_normalize_scale M e k :
  0 <= k ->
  binary_normalize prec emax (M * 2 ^ k) (e - k) false
  = binary_normalize prec emax M e false.
Proof.
  intros Hk. destruct k as [| k | k]; [| | lia].
  - rewrite Z.pow_0_r, Z.mul_1_r, Z.sub_0_r. reflexivity.
  - destruct M as [| m | m].
    + reflexivity.
    + rewrite <- iter_xO_mul. cbn [binary_normalize]. apply binary_round_scale.
    + replace (Z.neg m * 2 ^ Z.pos k) with (Z.neg (Pos.iter xO m k))
        by (rewrite <- Pos2Z.opp_pos, iter_xO_mul; lia).
      cbn [binary_normalize]. apply binary_round_scale.
Qed.

End Scaling.

(** ** Integers are added without rounding *)

Section Exactness.

Local Open Scope Z_scope.

Lemma shl_align_fst m e e' :
  e' <= e -> Z.pos (fst (shl_align m e e')) = Z.pos m * 2 ^ (e - e').
Proof.
  intros H. unfold shl_align.
  destruct (e' - e) as [| d | d] eqn:E; try lia.
  - replace (e - e') with 0 by lia. simpl. lia.
  - cbn [fst]. rewrite iter_xO_mul. f_equal. f_equal. lia.
Qed.

(** Adding to a finite value does not depend on how the exponent of the
    other operand is chosen. *)
Lemma add_scale s m e k sz mz ez :
  F32.add (S754_finite s (Pos.iter xO m k) (e - Z.pos k))
          (S754_finite sz mz ez)
  = F32.add (S754_finite s m e) (S754_finite sz mz ez).
Proof.
  unfold F32.add, SFadd.
  set (ea := Z.min (e - Z.pos k) ez).
  set (eb := Z.min e ez).
  rewrite !shl_align_fst by (unfold ea, eb; lia).
  rewrite iter_xO_mul.
  assert (Hk : 0 <= eb - ea) by (unfold ea, eb; lia).
  replace ea with (eb - (eb - ea)) at 3 by lia.
  rewrite <- (binary_normalize_scale _ eb (eb - ea) Hk).
  f_equal.
  rewrite Z.mul_add_distr_r.
  assert (P : forall b x y, cond_Zopp b x * y = cond_Zopp b (x * y)).
  { intros [] x y; unfold cond_Zopp; lia. }
  rewrite !P. f_equal.
  - f_equal. rewrite <- !Z.mul_assoc, <- !Z.pow_add_r
      by (unfold ea, eb; lia).
    f_equal. f_equal. lia.
  - f_equal. rewrite <- !Z.mul_assoc, <- !Z.pow_add_r
      by (unfold ea, eb; lia).
    f_equal. f_equal. lia.
Qed.

Lemma fma_one x z : valid x = true -> F32.fma x one z = F32.add x z.
Proof.
  intros Hv.
  destruct x as [s | s | | s m e].
  - destruct s; reflexivity.
  - destruct s; reflexivity.
  - reflexivity.
  - unfold F32.fma, one.
    destruct z as [sz | sz | | sz mz ez].
    + change (F32.mul (S754_finite s m e) (S754_finite false 8388608 (-23)))
        with (F32.mul (S754_finite s m e) one).
      rewrite (mul_one_r _ Hv). reflexivity.
    + reflexivity.
    + reflexivity.
    + rewrite xorb_false_r.
      rewrite Pos.mul_comm.
      change (8388608 * m)%positive with (Pos.iter xO m 23).
      change (e + -23) with (e - Z.pos 23).
      apply add_scale.
Qed.

(** A mantissa and an exponent in canonical form are their own rounding. *)
Lemma binary_round_aux_canonical s m e :
  fexp prec emax (Z.pos (digits2_pos m) + e) = e -> e <= emax - prec ->
  binary_round_aux prec emax s (Z.pos m) e loc_Exact = S754_finite s m e.
Proof.
  intros Hc Hb. unfold binary_round_aux, shr_fexp.
  cbn [Zdigits2 shr_record_of_loc]. rewrite Hc, Z.sub_diag.
  cbn [shr shr_m loc_of_shr_record round_nearest_even Zdigits2].
  rewrite Hc, Z.sub_diag. cbn [shr shr_m].
  apply Z.leb_le in Hb. rewrite Hb. reflexivity.
Qed.

(** The binary32 value of a positive integer below [2 ^ 24]: a mantissa
    that is the integer scaled by a power of two. *)
Lemma of_Z_small u :
  0 < u < 2 ^ 24 ->
  exists m k, of_Z u = S754_finite false m (- k)
              /\ 0 <= k /\ Z.pos m = u * 2 ^ k.
Proof.
  intros Hu. destruct u as [| p | p]; try lia.
  unfold of_Z. cbn [binary_normalize]. unfold binary_round.
  assert (Hd : 1 <= Z.pos (digits2_pos p) <= 24).
  { split; [lia |].
    apply (Zdigits2_le (Z.pos p) 24); lia. }
  set (d := Z.pos (digits2_pos p)) in *.
  assert (Hf : fexp prec emax (d + 0) = d - 24).
  { unfold fexp, emin, prec, emax. lia. }
  rewrite Hf. unfold shl_align.
  destruct (d - 24 - 0) as [| q | q] eqn:E; try lia.
  - exists p, 0. split.
    + apply binary_round_aux_canonical.
      * fold d. change (- 0) with 0. rewrite Hf. lia.
      * unfold emax, prec. lia.
    + split; lia.
  - exists (Pos.iter xO p q), (Z.pos q). split.
    + replace (d - 24) with (- Z.pos q) by lia.
      apply binary_round_aux_canonical.
      * rewrite digits2_pos_iter_xO. fold d.
        unfold fexp, emin, prec, emax. lia.
      * unfold emax, prec. lia.
    + split; [lia | apply iter_xO_mul].
Qed.

Lemma of_Z_0 : of_Z 0 = zero.
Proof. reflexivity. Qed.

Lemma of_Z_not_neg_zero u : of_Z u <> S754_zero true.
Proof.
  unfold of_Z. destruct u as [| p | p]; cbn [binary_normalize].
  - discriminate.
  - unfold binary_round.
    destruct (shl_align p 0 _) as [mz ez].
    destruct (binary_round_aux_spec false (Z.pos mz) ez loc_Exact)
      as (m2 & e2 & E & _ & _ & _ & Hp); [lia |].
    rewrite E. destruct m2; try discriminate.
    destruct (e2 <=? emax - prec); discriminate.
  - unfold binary_round.
    destruct (shl_align p 0 _) as [mz ez] eqn:Es.
    destruct (binary_round_aux_spec true (Z.pos mz) ez loc_Exact)
      as (m2 & e2 & E & _ & _ & _ & Hp); [lia |].
    rewrite E. destruct m2; try discriminate.
    + (* the rounding of a non-zero integer is not a zero *)
      exfalso.
      assert (emin prec emax < Zdigits2 (Z.pos mz) + ez).
      { unfold shl_align in Es. cbn [Zdigits2].
        destruct (fexp prec emax (Z.pos (digits2_pos p) + 0) - 0)
          as [| q | q] eqn:Eq; inversion Es; subst.
        - unfold emin, prec, emax. lia.
        - unfold emin, prec, emax. lia.
        - rewrite digits2_pos_iter_xO.
          unfold fexp, emin, prec, emax in *. lia. }
      specialize (Hp ltac:(lia) H). lia.
    + destruct (e2 <=? emax - prec); discriminate.
Qed.

(** Integers below [2 ^ 24] are added without rounding error. *)
Lemma add_of_Z u v :
  0 <= u < 2 ^ 24 -> 0 <= v < 2 ^ 24 ->
  F32.add (of_Z u) (of_Z v) = of_Z (u + v).
Proof.
  intros Hu Hv.
  destruct (Z.eq_dec u 0) as [-> | Hu0].
  { rewrite of_Z_0, Z.add_0_l. apply add_zero_l. apply of_Z_not_neg_zero. }
  destruct (Z.eq_dec v 0) as [-> | Hv0].
  { rewrite of_Z_0, Z.add_0_r. apply add_zero_r. apply of_Z_not_neg_zero. }
  destruct (of_Z_small u) as (m1 & k1 & E1 & Hk1 & M1); [lia |].
  destruct (of_Z_small v) as (m2 & k2 & E2 & Hk2 & M2); [lia |].
  rewrite E1, E2. unfold F32.add, SFadd.
  set (ez := Z.min (- k1) (- k2)).
  rewrite !shl_align_fst by (unfold ez; lia).
  cbn [cond_Zopp]. rewrite M1, M2.
  unfold of_Z.
  rewrite <- (binary_normalize_scale (u + v) 0 (- ez))
    by (unfold ez; lia).
  f_equal; [| lia].
  rewrite Z.mul_add_distr_r, <- !Z.mul_assoc, <- !Z.pow_add_r
    by (unfold ez; lia).
  f_equal; f_equal; f_equal; lia.
Qed.

End Exactness.

(** ** Plans *)

Lemma accumulate_dot_of a b p :
  dot_of a b (Torch.terms p) (Torch.accumulate a b p).
Proof.
  induction p as [| l | p IHp q IHq | l p IH]; simpl.
  - apply dot_of_nil.
  - apply dot_of_term.
  - apply dot_of_add; assumption.
  - apply dot_of_fma; assumption.
Qed.

Lemma covers_dot_of a b k p :
  Torch.covers k p -> dot_of a b (seq 0 k) (Torch.accumulate a b p).
Proof.
  intros H. apply (dot_of_perm a b (Torch.terms p)); [exact H |].
  apply accumulate_dot_of.
Qed.

Lemma covers_lt k p l : Torch.covers k p -> In l (Torch.terms p) -> l < k.
Proof.
  intros H Hl. apply (Permutation_in _ H) in Hl.
  apply in_seq in Hl. lia.
Qed.

Lemma accumulate_ext a b a' b' p :
  (forall l, In l (Torch.terms p) -> a l = a' l /\ b l = b' l) ->
  Torch.accumulate a b p = Torch.accumulate a' b' p.
Proof.
  induction p as [| l | p IHp q IHq | l p IH]; simpl; intros H.
  - reflexivity.
  - destruct (H l) as [-> ->]; [left; reflexivity | reflexivity].
  - rewrite IHp, IHq; [reflexivity | |];
      intros l Hl; apply H; apply in_or_app; [right | left]; exact Hl.
  - destruct (H l) as [-> ->]; [left; reflexivity |].
    rewrite IH; [reflexivity |]. intros l' Hl'. apply H. right; exact Hl'.
Qed.

Lemma terms_in_order_acc L : forall p,
  Torch.terms (fold_left (fun p l => Torch.Plus p (Torch.Product l)) L p)
  = Torch.terms p ++ L.
Proof.
  induction L as [| x L IH]; intros p; simpl.
  - rewrite app_nil_r. reflexivity.
  - rewrite IH. simpl. rewrite <- app_assoc. reflexivity.
Qed.

Lemma in_order_covers k i j : Torch.covers k (Torch.in_order k i j).
Proof.
  unfold Torch.covers, Torch.in_order. rewrite terms_in_order_acc.
  apply Permutation_refl.
Qed.

Lemma terms_fused_acc L : forall p,
  Torch.terms (fold_left (fun p l => Torch.Fused l p) L p)
  = rev L ++ Torch.terms p.
Proof.
  induction L as [| x L IH]; intros p; simpl.
  - reflexivity.
  - rewrite IH. simpl. rewrite <- app_assoc. reflexivity.
Qed.

Lemma fused_in_order_covers k i j :
  Torch.covers k (Torch.fused_in_order k i j).
Proof.
  unfold Torch.covers, Torch.fused_in_order. rewrite terms_fused_acc.
  simpl. rewrite app_nil_r. apply Permutation_sym, Permutation_rev.
Qed.

Lemma index_order_valid : valid_order index_order.
Proof. intros s k i j. apply in_order_covers. Qed.

Lemma fused_order_valid : valid_order fused_order.
Proof. intros s k i j. apply fused_in_order_covers. Qed.

(** In index order from zero a plan accumulates what [Torch.dot] does. *)
Lemma accumulate_in_order a b k i j :
  Torch.accumulate a b (Torch.in_order k i j) = Torch.dot a b k.
Proof.
  unfold Torch.in_order, Torch.dot, Torch.sum.
  change zero with (Torch.accumulate a b Torch.Start).
  generalize Torch.Start. generalize (seq 0 k).
  induction l as [| x l IH]; intros p; simpl.
  - reflexivity.
  - rewrite IH. reflexivity.
Qed.

Lemma mm_in_order a b : Torch.mm_with Torch.in_order a b = Torch.mm a b.
Proof.
  unfold Torch.mm_with, Torch.mm. apply build_ext. intros i j _ _.
  apply accumulate_in_order.
Qed.

Lemma matmul_in_order a b :
  Torch.matmul_with Torch.in_order a b = Torch.matmul a b.
Proof.
  unfold Torch.matmul_with, Torch.matmul. rewrite mm_in_order. reflexivity.
Qed.

Lemma init_in_order rng n o a :
  init_with index_order rng n o a = init rng n o a.
Proof.
  unfold init_with, init, index_order.
  destruct (Torch.add a _); [| reflexivity]. cbn [bind].
  destruct (Torch.ones n n); [| reflexivity]. cbn [bind].
  rewrite matmul_in_order. reflexivity.
Qed.

Lemma forward_in_order X self :
  forward_with index_order X self = forward X self.
Proof.
  unfold forward_with, forward, index_order, mbind, read, call, ret.
  rewrite matmul_in_order.
  destruct (Torch.matmul (A_hat self) (D_neg_sqrt self)) as [t |];
    [| reflexivity].
  rewrite matmul_in_order.
  destruct (Torch.matmul (D_neg_sqrt self) t) as [s1 |]; [| reflexivity].
  rewrite matmul_in_order.
  destruct (Torch.matmul X (W self)) as [p |]; [| reflexivity].
  rewrite matmul_in_order. reflexivity.
Qed.

(** ** Sums and products as relations *)

Lemma sum_of_valid t L x :
  (forall l, In l L -> valid (t l) = true) -> sum_of t L x -> valid x = true.
Proof.
  intros Ht H. induction H as [| l | L1 L2 x y H1 IH1 H2 IH2 | L L' x HP H IH].
  - reflexivity.
  - apply Ht. left; reflexivity.
  - apply add_valid; [apply IH1 | apply IH2];
      intros l Hl; apply Ht; apply in_or_app; [left | right]; exact Hl.
  - apply IH. intros l Hl. apply Ht. apply (Permutation_in _ HP). exact Hl.
Qed.

(** A sum of products with 1 is a sum of the first factors. *)
Lemma dot_of_ones a L x :
  (forall l, In l L -> valid (a l) = true) ->
  dot_of a (fun _ => one) L x -> sum_of a L x.
Proof.
  intros Ha H.
  induction H as [| l | L1 L2 x y H1 IH1 H2 IH2 | l L x H IH
                  | L L' x HP H IH].
  - apply sum_of_nil.
  - rewrite mul_one_r by (apply Ha; left; reflexivity). apply sum_of_term.
  - apply sum_of_add; [apply IH1 | apply IH2];
      intros l Hl; apply Ha; apply in_or_app; [left | right]; exact Hl.
  - rewrite fma_one by (apply Ha; left; reflexivity).
    apply (sum_of_add a [l] L); [apply sum_of_term |].
    apply IH. intros l' Hl'. apply Ha. right; exact Hl'.
  - apply (sum_of_perm a L L' x HP).
    apply IH. intros l Hl. apply Ha. apply (Permutation_in _ HP). exact Hl.
Qed.

Lemma Zsum_list_app z L1 L2 :
  Zsum_list z (L1 ++ L2) = (Zsum_list z L1 + Zsum_list z L2)%Z.
Proof.
  unfold Zsum_list. induction L1 as [| x L1 IH]; simpl; [reflexivity |].
  rewrite IH. lia.
Qed.

Lemma Zsum_list_perm z L L' :
  Permutation L L' -> Zsum_list z L = Zsum_list z L'.
Proof.
  unfold Zsum_list. induction 1; simpl; lia.
Qed.

Lemma Zsum_list_nonneg z L :
  (forall l, In l L -> (0 <= z l)%Z) -> (0 <= Zsum_list z L)%Z.
Proof.
  unfold Zsum_list. induction L as [| x L IH]; simpl; intros H; [lia |].
  assert (0 <= z x)%Z by (apply H; left; reflexivity).
  assert (0 <= fold_right Z.add 0 (map z L))%Z
    by (apply IH; intros l Hl; apply H; right; exact Hl).
  lia.
Qed.

(** A sum of non-negative integers that stays below [2 ^ 24] is exact,
    in whatever order it is accumulated. *)
Lemma sum_of_exact t z L x :
  sum_of t L x ->
  (forall l, In l L -> t l = of_Z (z l) /\ (0 <= z l)%Z) ->
  (Zsum_list z L < 2 ^ 24)%Z ->
  x = of_Z (Zsum_list z L).
Proof.
  intros H.
  induction H as [| l | L1 L2 x y H1 IH1 H2 IH2 | L L' x HP H IH];
    intros Ht Hb.
  - reflexivity.
  - destruct (Ht l) as [E _]; [left; reflexivity |].
    rewrite E. unfold Zsum_list. simpl. rewrite Z.add_0_r. reflexivity.
  - assert (Ht1 : forall l, In l L1 -> t l = of_Z (z l) /\ (0 <= z l)%Z)
      by (intros l Hl; apply Ht; apply in_or_app; left; exact Hl).
    assert (Ht2 : forall l, In l L2 -> t l = of_Z (z l) /\ (0 <= z l)%Z)
      by (intros l Hl; apply Ht; apply in_or_app; right; exact Hl).
    assert (N1 : (0 <= Zsum_list z L1)%Z)
      by (apply Zsum_list_nonneg; intros l Hl; apply Ht1; exact Hl).
    assert (N2 : (0 <= Zsum_list z L2)%Z)
      by (apply Zsum_list_nonneg; intros l Hl; apply Ht2; exact Hl).
    rewrite Zsum_list_app in *.
    rewrite (IH1 Ht1) by lia. rewrite (IH2 Ht2) by lia.
    apply add_of_Z; lia.
  - rewrite <- (Zsum_list_perm z L L' HP) in *.
    apply IH; [| exact Hb].
    intros l Hl. apply Ht. apply (Permutation_in _ HP). exact Hl.
Qed.

Lemma relu_max_zero x : F32.relu x = max_zero x.
Proof.
  destruct x as [[] | [] | | [] m e]; reflexivity.
Qed.

(** ** Construction and forward pass, whatever the order *)

Lemma init_with_square ord rng n o a :
  rows a = n -> cols a = n -> (0 <= o)%Z ->
  init_with ord rng (Z.of_nat n) o a = Ok (constructed_with ord rng n o a).
Proof.
  intros Hr Hc Ho. unfold init_with.
  rewrite (add_eye_square n a Hr Hc). cbn [bind].
  unfold Torch.ones, Torch.rand, Torch.matmul_with, Torch.float.
  replace (Z.of_nat n <? 0)%Z with false by (symmetry; apply Z.ltb_ge; lia).
  replace (o <? 0)%Z with false by (symmetry; apply Z.ltb_ge; lia).
  cbn [orb bind]. rewrite build_rows, Nat2Z.id, Hc, Nat.eqb_refl.
  reflexivity.
Qed.

Lemma get_mm_with s a b i j :
  i < rows a -> j < cols b ->
  get (Torch.mm_with s a b) i j
  = Torch.accumulate (fun l => get a i l) (fun l => get b l j)
      (s (cols a) i j).
Proof. intros Hi Hj. unfold Torch.mm_with. apply get_build; assumption. Qed.

Lemma mm_with_is_product s a b :
  (forall i j, Torch.covers (cols a) (s (cols a) i j)) ->
  is_product a b (Torch.mm_with s a b).
Proof.
  intros Hs. unfold is_product.
  split; [reflexivity |]. split; [reflexivity |].
  split; [apply build_wf |].
  intros i j Hi Hj. rewrite get_mm_with by assumption.
  apply covers_dot_of. apply Hs.
Qed.

Lemma diag_mm_with_ones ord n a :
  valid_order ord -> rows a = n -> cols a = n ->
  Torch.diag (Torch.mm_with (ord Degree) a (build n n (fun _ _ => one)))
  = map (degree_with ord a) (seq 0 n).
Proof.
  intros Hord Hr Hc.
  rewrite (diag_square n) by (unfold Torch.mm_with; simpl; congruence).
  apply map_ext_in. intros i Hi. apply in_seq in Hi.
  rewrite get_mm_with by (rewrite ?build_cols; lia).
  unfold degree_with. apply accumulate_ext. intros l Hl.
  split; [reflexivity |].
  apply (covers_lt _ _ _ (Hord Degree (cols a) i i)) in Hl.
  rewrite get_build by lia. reflexivity.
Qed.

Lemma D_constructed_with ord rng n o a :
  valid_order ord -> rows a = n -> cols a = n ->
  D (constructed_with ord rng n o a) = diag_matrix n (degree_with ord a).
Proof.
  intros Hord Hr Hc. unfold constructed_with; cbn [D].
  rewrite (diag_mm_with_ones ord n a Hord Hr Hc). apply diag_embed_map.
Qed.

Lemma D_neg_sqrt_constructed_with ord rng n o a :
  valid_order ord -> rows a = n -> cols a = n ->
  D_neg_sqrt (constructed_with ord rng n o a)
  = diag_matrix n (fun i => F32.div one (F32.sqrt (degree_with ord a i))).
Proof.
  intros Hord Hr Hc. unfold constructed_with; cbn [D_neg_sqrt].
  rewrite (diag_mm_with_ones ord n a Hord Hr Hc),
    (diag_embed_map n (degree_with ord a)).
  rewrite (diag_square n) by reflexivity.
  rewrite diag_embed_map.
  unfold diag_matrix at 1 3. apply build_ext. intros i j Hi Hj.
  destruct (i =? j); [| reflexivity].
  unfold Torch.pow_neg_half. rewrite get_build by (simpl; lia).
  rewrite get_diag_matrix by lia. rewrite Nat.eqb_refl. reflexivity.
Qed.

(** The stored degree is a binary32 sum of the row of [a]. *)
Lemma degree_with_sum_of ord n a i :
  valid_order ord -> cols a = n -> all_entries valid a = true ->
  sum_of (fun j => get a i j) (seq 0 n) (degree_with ord a i).
Proof.
  intros Hord Hc Hv. apply dot_of_ones.
  - intros l _. apply all_entries_get; [exact Hv | reflexivity].
  - unfold degree_with. rewrite <- Hc. apply covers_dot_of. apply Hord.
Qed.

Lemma degree_with_valid ord n a i :
  valid_order ord -> cols a = n -> all_entries valid a = true ->
  valid (degree_with ord a i) = true.
Proof.
  intros Hord Hc Hv.
  apply (sum_of_valid (fun j => get a i j) (seq 0 n)).
  - intros l _. apply all_entries_get; [exact Hv | reflexivity].
  - apply degree_with_sum_of; assumption.
Qed.

Lemma forward_with_unfold ord X self :
  forward_with ord X self =
  if (cols (A_hat self) =? rows (D_neg_sqrt self))
     && (cols (D_neg_sqrt self) =? rows (A_hat self))
     && (cols X =? rows (W self))
     && (cols (D_neg_sqrt self) =? rows X)
  then Ok (Torch.relu (pre_activation_with ord self X), self)
  else Err ShapeError.
Proof.
  unfold forward_with, mbind, read, call, ret, Torch.matmul_with,
    pre_activation_with, S_with.
  destruct (cols (A_hat self) =? rows (D_neg_sqrt self)); [| reflexivity].
  cbn [rows cols Torch.mm_with build andb].
  destruct (cols (D_neg_sqrt self) =? rows (A_hat self)); [| reflexivity].
  destruct (cols X =? rows (W self)); [| reflexivity].
  cbn [rows cols Torch.mm_with build andb].
  destruct (cols (D_neg_sqrt self) =? rows X); reflexivity.
Qed.

(** [forward_with] reads the fields [A_hat], [D_neg_sqrt] and [W] and no
    other. *)
Lemma forward_with_reads ord X s1 s2 :
  A_hat s1 = A_hat s2 -> D_neg_sqrt s1 = D_neg_sqrt s2 -> W s1 = W s2 ->
  returned (forward_with ord X s1) = returned (forward_with ord X s2).
Proof.
  intros Ha Hd Hw. rewrite !forward_with_unfold.
  unfold pre_activation_with, S_with. rewrite Ha, Hd, Hw.
  destruct (_ && _); reflexivity.
Qed.

Lemma constructed_with_shapes ord rng n o a :
  valid_order ord -> rows a = n -> cols a = n ->
  rows (A_hat (constructed_with ord rng n o a)) = n
  /\ cols (A_hat (constructed_with ord rng n o a)) = n
  /\ rows (D_neg_sqrt (constructed_with ord rng n o a)) = n
  /\ cols (D_neg_sqrt (constructed_with ord rng n o a)) = n
  /\ rows (W (constructed_with ord rng n o a)) = n
  /\ cols (W (constructed_with ord rng n o a)) = Z.to_nat o.
Proof.
  intros Hord Hr Hc.
  rewrite (D_neg_sqrt_constructed_with ord rng n o a Hord Hr Hc).
  repeat split.
Qed.

Lemma forward_with_constructed ord rng n o a X :
  valid_order ord -> rows a = n -> cols a = n -> rows X = n -> cols X = n ->
  forward_with ord X (constructed_with ord rng n o a)
  = Ok (Torch.relu (pre_activation_with ord (constructed_with ord rng n o a) X),
        constructed_with ord rng n o a).
Proof.
  intros Hord Hr Hc HrX HcX.
  destruct (constructed_with_shapes ord rng n o a Hord Hr Hc)
    as (H1 & H2 & H3 & H4 & H5 & _).
  rewrite forward_with_unfold, H1, H2, H3, H4, H5, HrX, HcX, !Nat.eqb_refl.
  reflexivity.
Qed.

(** What [forward_with] returns on a layer whose fields have the sizes of
    an [n]-node graph: the rectified product [S . P] of products that the
    library accumulates in the given order. *)
Lemma forward_with_products ord (n : nat) (X : Tensor) (L : GCNLayer) :
  valid_order ord ->
  rows (A_hat L) = n -> cols (A_hat L) = n ->
  rows (D_neg_sqrt L) = n -> cols (D_neg_sqrt L) = n ->
  rows (W L) = n -> rows X = n -> cols X = n ->
  exists H M S P Y,
    returned (forward_with ord X L) = Ok H
    /\ is_product (A_hat L) (D_neg_sqrt L) M
    /\ is_product (D_neg_sqrt L) M S
    /\ is_product X (W L) P
    /\ is_product S P Y
    /\ H = build n (cols (W L)) (fun i l => max_zero (get Y i l)).
Proof.
  intros Hord H1 H2 H3 H4 H5 HrX HcX.
  exists (Torch.relu (pre_activation_with ord L X)).
  exists (Torch.mm_with (ord Inner) (A_hat L) (D_neg_sqrt L)).
  exists (S_with ord L).
  exists (Torch.mm_with (ord Projection) X (W L)).
  exists (pre_activation_with ord L X).
  split.
  { rewrite forward_with_unfold, H1, H2, H3, H4, H5, HrX, HcX, !Nat.eqb_refl.
    reflexivity. }
  split; [apply mm_with_is_product; intros; apply Hord |].
  split; [apply mm_with_is_product; intros; apply Hord |].
  split; [apply mm_with_is_product; intros; apply Hord |].
  split; [apply mm_with_is_product; intros; apply Hord |].
  unfold Torch.relu.
  replace (rows (pre_activation_with ord L X)) with n
    by (unfold pre_activation_with, S_with, Torch.mm_with; simpl; congruence).
  replace (cols (pre_activation_with ord L X)) with (cols (W L))
    by reflexivity.
  apply build_ext. intros i l _ _. apply relu_max_zero.
Qed.

Lemma exact_Z_of_Z u :
  (0 <= u < 2 ^ 24)%Z -> exact_Z (of_Z u) = Some u.
Proof.
  intros Hu. destruct (Z.eq_dec u 0) as [-> | H0]; [reflexivity |].
  destruct (of_Z_small u) as (m & k & E & Hk & Hm); [lia |].
  rewrite E. unfold exact_Z.
  destruct (Z.leb_spec 0 (- k)) as [Hle | Hlt].
  - assert (k = 0%Z) by lia. subst k. cbn [Z.opp cond_Zopp].
    rewrite Hm. f_equal. 
    rewrite Z.pow_0_r. lia.
  - rewrite Z.opp_involutive, Hm.
    rewrite Z.mod_mul by (apply Z.pow_nonzero; lia).
    rewrite Z.eqb_refl. cbn [cond_Zopp].
    rewrite Z.div_mul by (apply Z.pow_nonzero; lia). reflexivity.
Qed.

(** ** A product with a single term that is not a zero *)

Lemma same_value_refl x : same_value x x.
Proof. left; reflexivity. Qed.

Lemma add_zero_same_l x w y :
  is_zero x = true -> same_value w y -> same_value (F32.add x w) y.
Proof.
  intros Hx Hw. apply same_value_trans with w; [| exact Hw].
  apply add_same_zero_l; exact Hx.
Qed.

Lemma vanishes_mul x y : vanishes x y -> is_zero (F32.mul x y) = true.
Proof.
  intros [[Hx Hy] | [Hx Hy]];
    [apply mul_zero_finite | apply mul_finite_zero]; assumption.
Qed.

Lemma vanishes_fma x y z :
  vanishes x y -> F32.fma x y z = F32.add (F32.mul x y) z.
Proof.
  intros [[Hx Hy] | [Hx Hy]].
  - destruct x; try discriminate. reflexivity.
  - destruct y; try discriminate. destruct x; reflexivity.
Qed.

Lemma fma_onto_zero x y z :
  is_zero z = true -> same_value (F32.fma x y z) (F32.mul x y).
Proof.
  intros Hz.
  assert (G : same_value (F32.add (F32.mul x y) z) (F32.mul x y))
    by (apply add_same_zero_r; [apply same_value_refl | exact Hz]).
  destruct x as [sx | sx | | sx mx ex]; try exact G.
  destruct y as [sy | sy | | sy my ey]; try exact G.
  destruct z; try discriminate. apply same_value_refl.
Qed.

Lemma NoDup_app_disjoint (B : Type) (l1 l2 : list B) (x : B) :
  NoDup (l1 ++ l2) -> In x l1 -> ~ In x l2.
Proof.
  induction l1 as [| y l1 IH]; simpl; intros H Hx; [contradiction |].
  inversion H as [| ? ? Hn Hd]; subst.
  destruct Hx as [-> | Hx].
  - intros Hx2. apply Hn. apply in_or_app. right; exact Hx2.
  - apply IH; assumption.
Qed.

Lemma accumulate_single a b i p :
  NoDup (Torch.terms p) ->
  (forall l, In l (Torch.terms p) -> l <> i -> vanishes (a l) (b l)) ->
  (In i (Torch.terms p) ->
   same_value (Torch.accumulate a b p) (F32.mul (a i) (b i)))
  /\ (~ In i (Torch.terms p) -> is_zero (Torch.accumulate a b p) = true).
Proof.
  induction p as [| l | p IHp q IHq | l p IH]; simpl; intros Hnd Hv.
  - split; [contradiction | reflexivity].
  - split.
    + intros [-> | []]. apply same_value_refl.
    + intros Hn. apply vanishes_mul. apply Hv; [left; reflexivity |].
      intros ->. apply Hn. left; reflexivity.
  - destruct IHp as [Ip Zp].
    { apply NoDup_app_remove_r in Hnd. exact Hnd. }
    { intros l Hl. apply Hv. apply in_or_app. left; exact Hl. }
    destruct IHq as [Iq Zq].
    { apply NoDup_app_remove_l in Hnd. exact Hnd. }
    { intros l Hl. apply Hv. apply in_or_app. right; exact Hl. }
    split.
    + intros Hi. apply in_app_or in Hi. destruct Hi as [Hi | Hi].
      * apply add_same_zero_r; [apply Ip; exact Hi |].
        apply Zq. apply (NoDup_app_disjoint _ _ _ _ Hnd Hi).
      * apply add_zero_same_l; [| apply Iq; exact Hi].
        apply Zp. intros Hi'.
        apply (NoDup_app_disjoint _ _ _ _ Hnd Hi'). exact Hi.
    + intros Hn. apply add_is_zero.
      * apply Zp. intros Hi. apply Hn. apply in_or_app. left; exact Hi.
      * apply Zq. intros Hi. apply Hn. apply in_or_app. right; exact Hi.
  - inversion Hnd as [| ? ? Hnl Hnd']; subst.
    destruct (IH Hnd') as [Ip Zp].
    { intros l' Hl'. apply Hv. right; exact Hl'. }
    split.
    + intros [-> | Hi].
      * apply fma_onto_zero. apply Zp. exact Hnl.
      * assert (Hli : l <> i) by (intros ->; contradiction).
        rewrite vanishes_fma by (apply Hv; [left; reflexivity | exact Hli]).
        apply add_zero_same_l; [| apply Ip; exact Hi].
        apply vanishes_mul. apply Hv; [left; reflexivity | exact Hli].
    + intros Hn.
      assert (Hli : l <> i) by (intros ->; apply Hn; left; reflexivity).
      rewrite vanishes_fma by (apply Hv; [left; reflexivity | exact Hli]).
      apply add_is_zero.
      * apply vanishes_mul. apply Hv; [left; reflexivity | exact Hli].
      * apply Zp. intros Hi. apply Hn. right; exact Hi.
Qed.

(** In whatever order, a sum of products of which all but one have a
    zero factor and a finite one is the remaining product, up to the sign
    of a zero. *)
Lemma accumulate_single_same a b k i p :
  Torch.covers k p -> i < k ->
  (forall l, l < k -> l <> i -> vanishes (a l) (b l)) ->
  same_value (Torch.accumulate a b p) (F32.mul (a i) (b i)).
Proof.
  intros Hc Hi Hv.
  assert (Hnd : NoDup (Torch.terms p)).
  { apply (Permutation_NoDup (Permutation_sym Hc)). apply seq_NoDup. }
  apply (accumulate_single a b i p Hnd).
  - intros l Hl Hli. apply Hv; [| exact Hli].
    apply (covers_lt k p l Hc Hl).
  - apply (Permutation_in _ (Permutation_sym Hc)). apply in_seq. lia.
Qed.

(** The entries of the normalised adjacency of a constructed layer, in
    terms of the degrees the layer stores. *)
Lemma S_with_entries ord rng (n : nat) (o : Z) (a : Tensor) :
  valid_order ord -> rows a = n -> cols a = n ->
  (forall k j, k < n -> j < n ->
     is_finite (F32.mul (get (plus_identity n a) k j)
                  (F32.div one (F32.sqrt (degree_with ord a j)))) = true) ->
  forall i j, i < n -> j < n ->
    same_value (get (S_with ord (constructed_with ord rng n o a)) i j)
      (F32.mul (F32.div one (F32.sqrt (degree_with ord a i)))
         (F32.mul (get (plus_identity n a) i j)
            (F32.div one (F32.sqrt (degree_with ord a j))))).
Proof.
  intros Hord Hr Hc Hfin.
  pose proof (D_neg_sqrt_constructed_with ord rng n o a Hord Hr Hc) as HD.
  set (L := constructed_with ord rng n o a) in *.
  assert (HA : A_hat L = plus_identity n a) by reflexivity.
  set (dn := fun i => F32.div one (F32.sqrt (degree_with ord a i))) in *.
  set (ah := plus_identity n a) in *.
  assert (Hdn : forall i j, i < n -> j < n ->
                get (D_neg_sqrt L) i j = if i =? j then dn i else zero).
  { intros i j Hi Hj. rewrite HD. apply get_diag_matrix; assumption. }
  assert (HM : forall k j, k < n -> j < n ->
               same_value
                 (get (Torch.mm_with (ord Inner) ah (D_neg_sqrt L)) k j)
                 (F32.mul (get ah k j) (dn j))).
  { intros k j Hk Hj.
    rewrite get_mm_with
      by (rewrite ?HD; unfold ah, plus_identity; simpl; lia).
    change (cols ah) with n.
    replace (F32.mul (get ah k j) (dn j))
      with (F32.mul (get ah k j) (get (D_neg_sqrt L) j j))
      by (rewrite Hdn, Nat.eqb_refl by assumption; reflexivity).
    apply (accumulate_single_same
             (fun l => get ah k l) (fun l => get (D_neg_sqrt L) l j) n j);
      [apply Hord | exact Hj |].
    intros l Hl Hlj. right. rewrite Hdn by assumption.
    destruct (Nat.eqb_spec l j); [contradiction |].
    split; [| reflexivity].
    apply (mul_finite_inv _ (dn l)). apply Hfin; assumption. }
  intros i j Hi Hj. unfold S_with. rewrite HA. fold ah.
  apply same_value_trans
    with (F32.mul (dn i)
            (get (Torch.mm_with (ord Inner) ah (D_neg_sqrt L)) i j)).
  - rewrite get_mm_with
      by (rewrite ?HD; unfold Torch.mm_with; simpl; lia).
    replace (cols (D_neg_sqrt L)) with n by (rewrite HD; reflexivity).
    replace (dn i) with (get (D_neg_sqrt L) i i)
      by (rewrite Hdn, Nat.eqb_refl by assumption; reflexivity).
    apply (accumulate_single_same
             (fun k => get (D_neg_sqrt L) i k)
             (fun k => get (Torch.mm_with (ord Inner) ah (D_neg_sqrt L)) k j)
             n i);
      [apply Hord | exact Hi |].
    intros k Hk Hki. left. rewrite Hdn by assumption.
    destruct (Nat.eqb_spec i k); [congruence |].
    split; [reflexivity |].
    apply (same_value_finite _ _ (HM k j Hk Hj)). apply Hfin; assumption.
  - apply mul_same_value_r. apply HM; assumption.
Qed.

(** ** The claims on the forward pass and on the degrees *)

(** C1: for a square [n] by [n] matrix [a] constructed with
    [input_dim = n], and an [n] by [n] feature matrix [X], in whatever
    order the library accumulates its matrix products: construction
    succeeds with [A_hat = a + I_n] and with [D_neg_sqrt] the diagonal
    matrix of the inverse square roots [1 / sqrt (d i)] of the stored
    degrees [d i], which are binary32 sums of the rows of [a]; and
    [forward X] returns [max(Y, 0)] entry by entry,
    for a product [Y] of [S] and [P], where [S] is a product of
    [D_neg_sqrt] with a product of [A_hat] and [D_neg_sqrt], and [P] is a
    product of [X] and the stored weight matrix [W]. *)
Theorem forward_formula (ord : order) rng (n : nat) (o : Z) (a X : Tensor) :
  valid_order ord ->
  is_matrix n n a = true -> is_matrix n n X = true -> (0 <= o)%Z ->
  exists L H d M S P Y,
    init_with ord rng (Z.of_nat n) o a = Ok L
    /\ returned (forward_with ord X L) = Ok H
    /\ A_hat L = plus_identity n a
    /\ (forall i, i < n -> sum_of (fun j => get a i j) (seq 0 n) (d i))
    /\ D L = diag_matrix n d
    /\ D_neg_sqrt L = diag_matrix n (fun i => F32.div one (F32.sqrt (d i)))
    /\ is_product (A_hat L) (D_neg_sqrt L) M
    /\ is_product (D_neg_sqrt L) M S
    /\ is_product X (W L) P
    /\ is_product S P Y
    /\ H = build n (Z.to_nat o) (fun i l => max_zero (get Y i l)).
Proof.
  intros Hord Ha HX Ho.
  destruct (is_matrix_inv n n a Ha) as (Hr & Hc & _ & Hv).
  destruct (is_matrix_inv n n X HX) as (HrX & HcX & _ & _).
  set (L := constructed_with ord rng n o a).
  destruct (constructed_with_shapes ord rng n o a Hord Hr Hc)
    as (H1 & H2 & H3 & H4 & H5 & H6).
  destruct (forward_with_products ord n X L Hord H1 H2 H3 H4 H5 HrX HcX)
    as (H & M & S & P & Y & HH & HM & HS & HP & HY & E).
  exists L, H, (degree_with ord a), M, S, P, Y.
  split; [apply init_with_square; assumption |].
  split; [exact HH |].
  split; [reflexivity |].
  split; [intros i _; apply degree_with_sum_of; assumption |].
  split; [apply D_constructed_with; assumption |].
  split; [apply D_neg_sqrt_constructed_with; assumption |].
  split; [exact HM |]. split; [exact HS |]. split; [exact HP |].
  split; [exact HY |].
  rewrite E. fold L in H6. rewrite H6. reflexivity.
Qed.

Lemma Zsum_list_term_le z L l :
  (forall x, In x L -> (0 <= z x)%Z) -> In l L -> (z l <= Zsum_list z L)%Z.
Proof.
  unfold Zsum_list. induction L as [| x L IH]; simpl; intros Hz Hl;
    [contradiction |].
  assert (0 <= z x)%Z by (apply Hz; left; reflexivity).
  assert (0 <= fold_right Z.add 0 (map z L))%Z.
  { apply (Zsum_list_nonneg z L). intros y Hy. apply Hz. right; exact Hy. }
  destruct Hl as [-> | Hl]; [lia |].
  assert (z l <= fold_right Z.add 0 (map z L))%Z
    by (apply IH; [intros y Hy; apply Hz; right; exact Hy | exact Hl]).
  lia.
Qed.

(** Adding 1 at the index [i] adds 1 to the sum. *)
Lemma Zsum_list_bump z i len : forall s,
  Zsum_list (fun j => (z j + (if (i =? j)%nat then 1 else 0))%Z) (seq s len)
  = (Zsum_list z (seq s len)
     + (if ((s <=? i) && (i <? s + len))%nat then 1 else 0))%Z.
Proof.
  unfold Zsum_list. induction len as [| len IH]; intros s; simpl.
  - destruct (s <=? i) eqn:E1; destruct (i <? s + 0) eqn:E2; simpl;
      try reflexivity.
    apply Nat.leb_le in E1. apply Nat.ltb_lt in E2. lia.
  - rewrite IH.
    destruct (Nat.eqb_spec i s) as [-> | Hne].
    + replace (S s <=? s) with false by (symmetry; apply Nat.leb_gt; lia).
      replace (s <=? s) with true by (symmetry; apply Nat.leb_le; lia).
      replace (s <? s + S len) with true by (symmetry; apply Nat.ltb_lt; lia).
      simpl. lia.
    + destruct (Nat.leb_spec (S s) i) as [H1 | H1];
        destruct (Nat.leb_spec s i) as [H2 | H2];
        destruct (Nat.ltb_spec i (S s + len)) as [H3 | H3];
        destruct (Nat.ltb_spec i (s + S len)) as [H4 | H4];
        simpl; lia.
Qed.

Lemma one_of_Z : one = of_Z 1.
Proof. reflexivity. Qed.

(** With integer entries, the rows of [a + I_n] hold the integers of [a]
    and one more on the diagonal. *)
Lemma plus_identity_of_Z n a i z :
  i < n ->
  (forall j, j < n -> get a i j = of_Z (z j) /\ (0 <= z j < 2 ^ 24)%Z) ->
  forall j, j < n ->
    get (plus_identity n a) i j
    = of_Z (z j + (if i =? j then 1 else 0))
    /\ (0 <= z j + (if (i =? j)%nat then 1 else 0))%Z.
Proof.
  intros Hi Hz j Hj. destruct (Hz j Hj) as [E Hb].
  unfold plus_identity. rewrite get_build by assumption. rewrite E.
  destruct (i =? j).
  - split; [| lia]. rewrite one_of_Z. apply add_of_Z; [lia |].
    change (2 ^ 24)%Z with 16777216%Z. lia.
  - rewrite Z.add_0_r. split; [| lia].
    apply add_zero_r. apply of_Z_not_neg_zero.
Qed.

Lemma of_Z_succ_neq u :
  (0 <= u)%Z -> (u + 1 < 2 ^ 24)%Z -> of_Z (u + 1) <> of_Z u.
Proof.
  intros H0 Hb E.
  assert (E' : exact_Z (of_Z (u + 1)) = exact_Z (of_Z u))
    by (rewrite E; reflexivity).
  rewrite !exact_Z_of_Z in E' by lia. inversion E'. lia.
Qed.

(** C2: for a square [n] by [n] matrix [a] constructed with
    [input_dim = n], in whatever order the library accumulates the product
    [a . ones], the stored degree matrix [D] is the diagonal matrix of the
    diagonal of that product, and its [i]-th diagonal entry is a binary32
    sum of row [i] of [a].  When the entries of the row are non-negative
    integers whose sum is below [2 ^ 24 - 1], as in an adjacency matrix of
    zeros and ones, the entry is that sum exactly, whereas every binary32
    sum of row [i] of [A_hat] is one more: the degree is computed from [a]
    and not from [A_hat]. *)
Theorem degree_from_A (ord : order) rng (n : nat) (o : Z) (a : Tensor) :
  valid_order ord -> is_matrix n n a = true -> (0 <= o)%Z ->
  exists L d,
    init_with ord rng (Z.of_nat n) o a = Ok L
    /\ D L = diag_matrix n d
    /\ Torch.diag (Torch.mm_with (ord Degree) a (ones L)) = map d (seq 0 n)
    /\ (forall i, i < n ->
        get (D L) i i = d i
        /\ sum_of (fun j => get a i j) (seq 0 n) (d i))
    /\ (forall i z, i < n ->
        (forall j, j < n -> get a i j = of_Z (z j) /\ (0 <= z j)%Z) ->
        (Zsum z n + 1 < 2 ^ 24)%Z ->
        d i = of_Z (Zsum z n)
        /\ exact_Z (d i) = Some (Zsum z n)
        /\ forall x, sum_of (fun j => get (A_hat L) i j) (seq 0 n) x ->
             x = of_Z (Zsum z n + 1) /\ x <> d i).
Proof.
  intros Hord Ha Ho.
  destruct (is_matrix_inv n n a Ha) as (Hr & Hc & _ & Hv).
  exists (constructed_with ord rng n o a), (degree_with ord a).
  split; [apply init_with_square; assumption |].
  pose proof (D_constructed_with ord rng n o a Hord Hr Hc) as HD.
  split; [exact HD |].
  split; [apply diag_mm_with_ones; assumption |].
  split.
  - intros i Hi. split.
    + rewrite HD, get_diag_matrix by exact Hi.
      rewrite Nat.eqb_refl. reflexivity.
    + apply degree_with_sum_of; assumption.
  - intros i z Hi Hz Hb.
    assert (Hnn : (0 <= Zsum z n)%Z).
    { apply Zsum_list_nonneg. intros l Hl. apply in_seq in Hl.
      apply Hz. lia. }
    assert (E : degree_with ord a i = of_Z (Zsum z n)).
    { apply (sum_of_exact (fun j => get a i j) z (seq 0 n)).
      - apply degree_with_sum_of; assumption.
      - intros l Hl. apply in_seq in Hl. apply Hz. lia.
      - unfold Zsum in Hb. lia. }
    split; [exact E |].
    split; [rewrite E; apply exact_Z_of_Z; lia |].
    intros x Hx.
    assert (Hz' : forall j, j < n ->
              get a i j = of_Z (z j) /\ (0 <= z j < 2 ^ 24)%Z).
    { intros j Hj. destruct (Hz j Hj) as [Ej Hj0].
      split; [exact Ej |]. split; [exact Hj0 |].
      assert (z j <= Zsum z n)%Z.
      { apply Zsum_list_term_le.
        - intros y Hy. apply in_seq in Hy. apply Hz. lia.
        - apply in_seq. lia. }
      lia. }
    assert (Ex : x = of_Z (Zsum z n + 1)).
    { replace (Zsum z n + 1)%Z
        with (Zsum_list (fun j => (z j + (if (i =? j)%nat then 1 else 0))%Z)
                (seq 0 n)).
      - apply (sum_of_exact (fun j => get (plus_identity n a) i j)).
        + exact Hx.
        + intros l Hl. apply in_seq in Hl.
          apply (plus_identity_of_Z n a i z Hi Hz'). lia.
        + rewrite Zsum_list_bump.
          replace ((0 <=? i) && (i <? 0 + n)) with true
            by (symmetry; apply andb_true_intro; split;
                [apply Nat.leb_le | apply Nat.ltb_lt]; lia).
          exact Hb.
      - rewrite Zsum_list_bump.
        replace ((0 <=? i) && (i <? 0 + n)) with true
          by (symmetry; apply andb_true_intro; split;
              [apply Nat.leb_le | apply Nat.ltb_lt]; lia).
        reflexivity. }
    split; [exact Ex |].
    rewrite Ex, E. apply of_Z_succ_neq; lia.
Qed.

(** C10: for a square [n] by [n] matrix [a] constructed with
    [input_dim = n], in whatever order the library accumulates, when every
    degree the layer stores is strictly positive: the stored [D_neg_sqrt]
    is exactly the diagonal matrix of the inverse square roots of the
    stored degrees, which are binary32 sums of the rows of [a], with zeros
    off the diagonal, and all its entries are finite; the off-diagonal
    entries of the intermediate [D ** -0.5] are infinite, but extracting
    and re-embedding the diagonal discards them: any matrix with the same
    diagonal gives the same [D_neg_sqrt], and [forward] computes its result
    from that diagonal matrix. *)
Theorem D_neg_sqrt_exact (ord : order) rng (n : nat) (o : Z) (a : Tensor) :
  valid_order ord -> is_matrix n n a = true -> (0 <= o)%Z ->
  (forall i, i < n -> F32.ltb zero (degree_with ord a i) = true) ->
  let dn := diag_matrix n
              (fun i => F32.div one (F32.sqrt (degree_with ord a i))) in
  exists L,
    init_with ord rng (Z.of_nat n) o a = Ok L
    /\ D L = diag_matrix n (degree_with ord a)
    /\ (forall i, i < n ->
        sum_of (fun j => get a i j) (seq 0 n) (degree_with ord a i))
    /\ D_neg_sqrt L = dn
    /\ (forall i j, i < n -> j < n ->
        get (D_neg_sqrt L) i j
        = if i =? j then F32.div one (F32.sqrt (get (D L) i i)) else zero)
    /\ all_entries is_finite (D_neg_sqrt L) = true
    /\ (forall i j, i < n -> j < n -> i <> j ->
        get (Torch.pow_neg_half (D L)) i j = inf)
    /\ (forall m, rows m = n -> cols m = n ->
        (forall i, i < n ->
           get m i i = get (Torch.pow_neg_half (D L)) i i) ->
        Torch.diag_embed (Torch.diag m) = D_neg_sqrt L)
    /\ (forall X, is_matrix n n X = true ->
        exists H M S P Y,
          returned (forward_with ord X L) = Ok H
          /\ is_product (A_hat L) dn M
          /\ is_product dn M S
          /\ is_product X (W L) P
          /\ is_product S P Y
          /\ H = build n (Z.to_nat o) (fun i l => max_zero (get Y i l))).
Proof.
  intros Hord Ha Ho Hpos dn.
  destruct (is_matrix_inv n n a Ha) as (Hr & Hc & _ & Hv).
  set (L := constructed_with ord rng n o a).
  assert (HD : D_neg_sqrt L = dn)
    by (apply D_neg_sqrt_constructed_with; assumption).
  assert (HDL : D L = diag_matrix n (degree_with ord a))
    by (apply D_constructed_with; assumption).
  exists L.
  split; [apply init_with_square; assumption |].
  split; [exact HDL |].
  split; [intros i _; apply degree_with_sum_of; assumption |].
  split; [exact HD |].
  split.
  { intros i j Hi Hj. rewrite HD, HDL. unfold dn.
    rewrite !get_diag_matrix by assumption.
    rewrite Nat.eqb_refl. reflexivity. }
  split.
  { rewrite HD. unfold dn, diag_matrix.
    apply all_entries_build. intros i j Hi _.
    destruct (i =? j); [| reflexivity].
    apply (pow_neg_half_finite (degree_with ord a i)).
    - apply (degree_with_valid ord n); assumption.
    - apply Hpos; exact Hi. }
  split.
  { intros i j Hi Hj Hij. rewrite HDL.
    unfold Torch.pow_neg_half.
    rewrite get_build by (unfold diag_matrix; simpl; lia).
    rewrite get_diag_matrix by assumption.
    destruct (Nat.eqb_spec i j); [contradiction | reflexivity]. }
  split.
  { intros m Hrm Hcm Hd.
    apply (diag_embed_diag_agree n m (Torch.pow_neg_half (D L)));
      try assumption; rewrite HDL; reflexivity. }
  intros X HX.
  destruct (is_matrix_inv n n X HX) as (HrX & HcX & _ & _).
  destruct (constructed_with_shapes ord rng n o a Hord Hr Hc)
    as (H1 & H2 & H3 & H4 & H5 & H6).
  fold L in H1, H2, H3, H4, H5, H6.
  destruct (forward_with_products ord n X L Hord H1 H2 H3 H4 H5 HrX HcX)
    as (H & M & S & P & Y & HH & HM & HS & HP & HY & E).
  exists H, M, S, P, Y. rewrite <- HD.
  split; [exact HH |].
  split; [exact HM |]. split; [exact HS |]. split; [exact HP |].
  split; [exact HY |].
  rewrite E, H6. reflexivity.
Qed.

(** C8: the value that [forward] returns on [X] is a function of [X] and
    of the fields [A_hat], [D_neg_sqrt] and [W] alone, for a library that
    accumulates its products in the same order at both calls: two calls on
    the same [X] return the same value (or both fail) whenever the layer
    has the same [A_hat], [D_neg_sqrt] and [W] at both calls, whatever its
    other fields hold and whatever forward calls and optimizer steps the
    two layers have seen. *)
Theorem forward_deterministic (ord : order) (X : Tensor) (s1 s2 : GCNLayer)
    (es1 es2 : list event) :
  A_hat s1 = A_hat s2 -> D_neg_sqrt s1 = D_neg_sqrt s2 ->
  W (lifetime es1 s1) = W (lifetime es2 s2) ->
  returned (forward_with ord X (lifetime es1 s1))
  = returned (forward_with ord X (lifetime es2 s2)).
Proof.
  intros Ha Hd Hw.
  destruct (lifetime_fields es1 s1) as (_ & Hh1 & _ & Hn1).
  destruct (lifetime_fields es2 s2) as (_ & Hh2 & _ & Hn2).
  apply forward_with_reads; congruence.
Qed.

(** X5: in whatever order the library accumulates, the normalised
    adjacency is, entry by entry, [dn i * (a_hat i j * dn j)] up to the
    sign of a zero, where [dn i] is the inverse square root of the degree
    that the layer stores for node [i], when none of the inner products
    overflows. *)
Theorem normalised_adjacency_entries (ord : order) rng (n : nat) (o : Z)
    (a : Tensor) :
  valid_order ord -> rows a = n -> cols a = n -> (0 <= o)%Z ->
  (forall k j, k < n -> j < n ->
     is_finite (F32.mul (get (plus_identity n a) k j)
                  (F32.div one (F32.sqrt (degree_with ord a j)))) = true) ->
  exists L,
    init_with ord rng (Z.of_nat n) o a = Ok L
    /\ (forall i, i < n -> get (D L) i i = degree_with ord a i)
    /\ forall i j, i < n -> j < n ->
       same_value (get (S_with ord L) i j)
         (F32.mul (F32.div one (F32.sqrt (get (D L) i i)))
            (F32.mul (get (A_hat L) i j)
               (F32.div one (F32.sqrt (get (D L) j j))))).
Proof.
  intros Hord Hr Hc Ho Hfin.
  exists (constructed_with ord rng n o a).
  split; [apply init_with_square; assumption |].
  assert (HD : forall i, i < n ->
            get (D (constructed_with ord rng n o a)) i i
            = degree_with ord a i).
  { intros i Hi. rewrite (D_constructed_with ord rng n o a Hord Hr Hc).
    rewrite get_diag_matrix by exact Hi. rewrite Nat.eqb_refl. reflexivity. }
  split; [exact HD |].
  intros i j Hi Hj. rewrite !HD by assumption.
  apply S_with_entries; assumption.
Qed.

(** ** Instances for the orders of accumulation *)

Lemma forward_formula_witness :
  valid_order fused_order
  /\ is_matrix 3 3 A_example = true
  /\ is_matrix 3 3 X_example = true
  /\ (0 <= 2)%Z
  /\ exists L H d M S P Y,
       init_with fused_order rng_example (Z.of_nat 3) 2 A_example = Ok L
       /\ returned (forward_with fused_order X_example L) = Ok H
       /\ A_hat L = plus_identity 3 A_example
       /\ (forall i, i < 3 ->
           sum_of (fun j => get A_example i j) (seq 0 3) (d i))
       /\ D L = diag_matrix 3 d
       /\ D_neg_sqrt L
          = diag_matrix 3 (fun i => F32.div one (F32.sqrt (d i)))
       /\ is_product (A_hat L) (D_neg_sqrt L) M
       /\ is_product (D_neg_sqrt L) M S
       /\ is_product X_example (W L) P
       /\ is_product S P Y
       /\ H = build 3 (Z.to_nat 2) (fun i l => max_zero (get Y i l)).
Proof.
  split; [exact fused_order_valid |].
  split; [evaluate |]. split; [evaluate |]. split; [lia |].
  apply (forward_formula fused_order rng_example 3 2 A_example X_example);
    [exact fused_order_valid | evaluate | evaluate | lia].
Defined.

Lemma degree_from_A_witness :
  valid_order fused_order
  /\ is_matrix 3 3 A_example = true
  /\ (0 <= 2)%Z
  /\ exists L d,
       init_with fused_order rng_example (Z.of_nat 3) 2 A_example = Ok L
       /\ D L = diag_matrix 3 d
       /\ Torch.diag (Torch.mm_with (fused_order Degree) A_example (ones L))
          = map d (seq 0 3)
       /\ (forall i, i < 3 ->
           get (D L) i i = d i
           /\ sum_of (fun j => get A_example i j) (seq 0 3) (d i))
       /\ (forall i z, i < 3 ->
           (forall j, j < 3 ->
              get A_example i j = of_Z (z j) /\ (0 <= z j)%Z) ->
           (Zsum z 3 + 1 < 2 ^ 24)%Z ->
           d i = of_Z (Zsum z 3)
           /\ exact_Z (d i) = Some (Zsum z 3)
           /\ forall x,
                sum_of (fun j => get (A_hat L) i j) (seq 0 3) x ->
                x = of_Z (Zsum z 3 + 1) /\ x <> d i).
Proof.
  split; [exact fused_order_valid |].
  split; [evaluate |]. split; [lia |].
  apply (degree_from_A fused_order rng_example 3 2 A_example);
    [exact fused_order_valid | evaluate | lia].
Defined.

(** A sum in binary32 is a rounded one: on a first row that holds the
    integers 16777216 and 1, the degree that the layer stores for the
    first node is 16777216, the binary32 value nearest to 16777217,
    whether the products are rounded or fused. *)
Example degree_rounded :
  is_matrix 2 2 A_round = true
  /\ init_with index_order rng_example (Z.of_nat 2) 1 A_round = Ok L_round
  /\ exact_Z (get A_round 0 0) = Some 16777216%Z
  /\ exact_Z (get A_round 0 1) = Some 1%Z
  /\ exact_Z (get (D L_round) 0 0) = Some 16777216%Z
  /\ exact_Z (get (D L_round) 0 0) <> Some (16777216 + 1)%Z
  /\ D (constructed_with fused_order rng_example 2 1 A_round) = D L_round.
Proof.
  split; [evaluate |]. split; [evaluate |]. split; [evaluate |].
  split; [evaluate |]. split; [evaluate |].
  split; [vm_compute; discriminate | evaluate].
Qed.

(** The degree depends on the order of accumulation: on a row that holds
    16777216, 1 and 1 it is 16777216 in index order, and 16777218 when the
    last two entries are added first. *)
Example degree_depends_on_order :
  exact_Z (degree_with index_order A_three 0) = Some 16777216%Z
  /\ exact_Z (degree_with fused_order A_three 0) = Some 16777216%Z
  /\ exact_Z (degree_with tail_first A_three 0) = Some 16777218%Z.
Proof. split; [evaluate |]. split; evaluate. Qed.

Lemma D_neg_sqrt_exact_witness :
  valid_order fused_order
  /\ is_matrix 3 3 A_example = true
  /\ (0 <= 2)%Z
  /\ (forall i, i < 3 ->
      F32.ltb zero (degree_with fused_order A_example i) = true)
  /\ let dn := diag_matrix 3
                 (fun i => F32.div one
                             (F32.sqrt (degree_with fused_order A_example i)))
     in
     exists L,
       init_with fused_order rng_example (Z.of_nat 3) 2 A_example = Ok L
       /\ D L = diag_matrix 3 (degree_with fused_order A_example)
       /\ (forall i, i < 3 ->
           sum_of (fun j => get A_example i j) (seq 0 3)
                  (degree_with fused_order A_example i))
       /\ D_neg_sqrt L = dn
       /\ (forall i j, i < 3 -> j < 3 ->
           get (D_neg_sqrt L) i j
           = if i =? j then F32.div one (F32.sqrt (get (D L) i i))
             else zero)
       /\ all_entries is_finite (D_neg_sqrt L) = true
       /\ (forall i j, i < 3 -> j < 3 -> i <> j ->
           get (Torch.pow_neg_half (D L)) i j = inf)
       /\ (forall m, rows m = 3 -> cols m = 3 ->
           (forall i, i < 3 ->
              get m i i = get (Torch.pow_neg_half (D L)) i i) ->
           Torch.diag_embed (Torch.diag m) = D_neg_sqrt L)
       /\ (forall X, is_matrix 3 3 X = true ->
           exists H M S P Y,
             returned (forward_with fused_order X L) = Ok H
             /\ is_product (A_hat L) dn M
             /\ is_product dn M S
             /\ is_product X (W L) P
             /\ is_product S P Y
             /\ H = build 3 (Z.to_nat 2) (fun i l => max_zero (get Y i l))).
Proof.
  assert (Hpos : forall i, i < 3 ->
            F32.ltb zero (degree_with fused_order A_example i) = true).
  { intros i Hi. destruct i as [| [| [| i]]]; [evaluate .. | lia]. }
  split; [exact fused_order_valid |].
  split; [evaluate |]. split; [lia |]. split; [exact Hpos |].
  apply (D_neg_sqrt_exact fused_order rng_example 3 2 A_example);
    [exact fused_order_valid | evaluate | lia | exact Hpos].
Defined.

Lemma forward_deterministic_witness :
  A_hat layer_example = A_hat layer_other
  /\ D_neg_sqrt layer_example = D_neg_sqrt layer_other
  /\ W (lifetime es_example layer_example)
     = W (lifetime [Forward X_zero] layer_other)
  /\ returned (forward_with fused_order X_example
                 (lifetime es_example layer_example))
     = returned (forward_with fused_order X_example
                   (lifetime [Forward X_zero] layer_other)).
Proof.
  split; [evaluate |]. split; [evaluate |]. split; [evaluate |].
  apply (forward_deterministic fused_order X_example layer_example
           layer_other es_example [Forward X_zero]); evaluate.
Defined.

Lemma normalised_adjacency_entries_witness :
  valid_order fused_order
  /\ rows A_example = 3 /\ cols A_example = 3
  /\ (0 <= 2)%Z
  /\ (forall k j, k < 3 -> j < 3 ->
        is_finite
          (F32.mul (get (plus_identity 3 A_example) k j)
             (F32.div one
                (F32.sqrt (degree_with fused_order A_example j)))) = true)
  /\ exists L,
       init_with fused_order rng_example (Z.of_nat 3) 2 A_example = Ok L
       /\ (forall i, i < 3 ->
           get (D L) i i = degree_with fused_order A_example i)
       /\ forall i j, i < 3 -> j < 3 ->
          same_value (get (S_with fused_order L) i j)
            (F32.mul (F32.div one (F32.sqrt (get (D L) i i)))
               (F32.mul (get (A_hat L) i j)
                  (F32.div one (F32.sqrt (get (D L) j j))))).
Proof.
  assert (Hfin : forall k j, k < 3 -> j < 3 ->
            is_finite
              (F32.mul (get (plus_identity 3 A_example) k j)
                 (F32.div one
                    (F32.sqrt (degree_with fused_order A_example j))))
            = true).
  { intros k j Hk Hj.
    destruct k as [| [| [| k]]]; [| | | lia];
      (destruct j as [| [| [| j]]]; [evaluate .. | lia]). }
  split; [exact fused_order_valid |].
  split; [evaluate |]. split; [evaluate |]. split; [lia |].
  split; [exact Hfin |].
  apply (normalised_adjacency_entries fused_order rng_example 3 2 A_example);
    [exact fused_order_valid | evaluate | evaluate | lia | exact Hfin].
Defined.

Lemma init_invariants_witness :
  is_ok (init rng_example 3 2 A_row) = true
  /\ exists L,
       init rng_example 3 2 A_row = Ok L
       /\ input_dim L = 3%Z /\ output_dim L = 2%Z /\ A L = A_row
       /\ wf (A_hat L) = true /\ wf (ones L) = true /\ wf (D L) = true
       /\ wf (D_neg_sqrt L) = true /\ wf (W L) = true
       /\ rows (A_hat L) = rows A_row
       /\ rows (ones L) = cols A_row /\ cols (ones L) = cols A_row
       /\ rows (D L) = Nat.min (rows A_row) (cols A_row)
       /\ cols (D L) = Nat.min (rows A_row) (cols A_row)
       /\ rows (D_neg_sqrt L) = Nat.min (rows A_row) (cols A_row)
       /\ cols (D_neg_sqrt L) = Nat.min (rows A_row) (cols A_row)
       /\ rows (W L) = cols A_row /\ Z.of_nat (cols (W L)) = 2%Z
       /\ (forall i j, i < Nat.min (rows A_row) (cols A_row) ->
           j < Nat.min (rows A_row) (cols A_row) -> i <> j ->
           get (D L) i j = zero /\ get (D_neg_sqrt L) i j = zero)
       /\ Z.of_nat (rows (ones L)) = 3%Z /\ Z.of_nat (rows (W L)) = 3%Z
       /\ (forall i j, i < cols A_row -> j < cols A_row ->
           get (ones L) i j = one)
       /\ (forall i j, i < cols A_row -> j < Z.to_nat 2 ->
           get (W L) i j = rng_example (i * Z.to_nat 2 + j)).
Proof.
  split; [evaluate |].
  apply (init_invariants rng_example 3 2 A_row). evaluate.
Defined.
